(** * c-libp2p, secio: the handshake helpers of [secio/secio.c]

    A shallow embedding of [libp2p_secio_bytes_compare],
    [libp2p_secio_split_list], [libp2p_secio_select_best],
    [libp2p_secio_generate_nonce] and [libp2p_secio_handshake], and the
    properties of the secure channel specification stated over them.

    Conventions.
    - A C buffer together with its size is a [list byte]; a C string is the
      list of its bytes without the terminating NUL.
    - [int] values are in [Z]; a [size_t] is a [Z] reduced modulo [2^64].
    - A computation that dereferences NULL, reads past a buffer or uses an
      uninitialised pointer has no result: it is [None]. *)

From Stdlib Require Import ZArith List Bool Lia String.
From Stdlib Require Import Strings.Byte.
Import ListNotations.

Local Open Scope Z_scope.

(** * Part I: the model *)

(** ** Bytes and the plain [char] type *)

Definition bytes := list byte.

(** The bytes of a string literal. *)
Definition bs (s : string) : bytes := list_byte_of_string s.

Definition NUL : byte := x00.
Definition newline : byte := x0a.

(** The value of a byte read through [unsigned char]. *)
Definition uchar_value (c : byte) : Z := Z.of_N (Byte.to_N c).

(** Whether plain [char] is signed is fixed by the platform ABI: signed on
    x86 and x86-64, unsigned on ARM Linux. *)
Inductive char_kind : Set :=
| char_signed
| char_unsigned.

(** The value of a byte read through plain [char], promoted to [int]. *)
Definition char_value (k : char_kind) (c : byte) : Z :=
  match k with
  | char_unsigned => uchar_value c
  | char_signed =>
      if 128 <=? uchar_value c then uchar_value c - 256 else uchar_value c
  end.

(** Conversion of an [int] to [size_t] (64 bits). *)
Definition to_size_t (n : Z) : Z := n mod 2 ^ 64.

(** ** The C string functions the file calls *)

(** The bytes of a buffer up to its first NUL, the whole buffer when it
    has none: what a copy that is terminated behind its last byte holds as
    a C string. *)
Fixpoint c_str (buf : bytes) : bytes :=
  match buf with
  | [] => []
  | c :: buf' => if Byte.eqb c NUL then [] else c :: c_str buf'
  end.

(** The C string a string function reads in a buffer of known size: the
    bytes before the first NUL.  In a buffer without NUL the function reads
    past the end, and there is no result. *)
Fixpoint c_string (buf : bytes) : option bytes :=
  match buf with
  | [] => None
  | c :: buf' =>
      if Byte.eqb c NUL then Some []
      else option_map (cons c) (c_string buf')
  end.

Fixpoint starts_with (needle s : bytes) : bool :=
  match needle, s with
  | [], _ => true
  | _ :: _, [] => false
  | n :: needle', c :: s' => Byte.eqb n c && starts_with needle' s'
  end.

(** [strstr]: the offset of the first occurrence of [needle], [None] for
    the NULL result. *)
Fixpoint strstr (s needle : bytes) : option nat :=
  if starts_with needle s then Some O
  else match s with
       | [] => None
       | _ :: s' => option_map S (strstr s' needle)
       end.

(** [strchr]: the offset of the first occurrence of [c]. *)
Fixpoint strchr (s : bytes) (c : byte) : option nat :=
  match s with
  | [] => None
  | d :: s' => if Byte.eqb d c then Some O else option_map S (strchr s' c)
  end.

(** [strcmp]: the sign of the first difference, bytes compared as
    [unsigned char]. *)
Fixpoint strcmp (a b : bytes) : Z :=
  match a, b with
  | [], [] => 0
  | [], _ :: _ => -1
  | _ :: _, [] => 1
  | x :: a', y :: b' =>
      if uchar_value x <? uchar_value y then -1
      else if uchar_value y <? uchar_value x then 1
      else strcmp a' b'
  end.

Definition is_delim (delim : bytes) (c : byte) : bool :=
  existsb (Byte.eqb c) delim.

Fixpoint skip_delims (delim s : bytes) : bytes :=
  match s with
  | [] => []
  | c :: s' => if is_delim delim c then skip_delims delim s' else s
  end.

(** The token that starts at [s] and what is left after the delimiter that
    ends it. *)
Fixpoint span_token (delim s : bytes) : bytes * bytes :=
  match s with
  | [] => ([], [])
  | c :: s' =>
      if is_delim delim c then ([], s')
      else let (tok, rest) := span_token delim s' in (c :: tok, rest)
  end.

(** One call of [strtok] on what is left of the string: the next token and
    the new rest, or [None] when only delimiters are left. *)
Definition strtok (delim s : bytes) : option (bytes * bytes) :=
  match skip_delims delim s with
  | [] => None
  | s1 => Some (span_token delim s1)
  end.

(** ** [libp2p_secio_bytes_compare] *)

(** The [for] loop of [libp2p_secio_bytes_compare], entered at index [i]
    with [n] iterations left.  [b[i]] and [a[i]] are read through
    [const char*]. *)
Fixpoint bytes_compare_from (k : char_kind) (a b : bytes) (i n : nat)
  : option Z :=
  match n with
  | O => Some 0
  | S n' =>
      match nth_error b i, nth_error a i with
      | Some bi, Some ai =>
          if char_value k bi >? char_value k ai then Some (-1)
          else if char_value k ai >? char_value k bi then Some 1
          else bytes_compare_from k a b (S i) n'
      | _, _ => None
      end
  end.

Definition libp2p_secio_bytes_compare (k : char_kind) (a b : bytes)
  (length : Z) : option Z :=
  bytes_compare_from k a b 0 (Z.to_nat length).

(** The comparison the specification describes, written from its words:
    the first position where the two arrays differ decides, the bytes
    compared as unsigned values; [-1] when the byte of [a] is smaller, [+1]
    when it is larger, [0] when no position differs. *)
Fixpoint unsigned_lex_compare (a b : bytes) : Z :=
  match a, b with
  | x :: a', y :: b' =>
      if uchar_value x <? uchar_value y then -1
      else if uchar_value y <? uchar_value x then 1
      else unsigned_lex_compare a' b'
  | _, _ => 0
  end.

(** The loop of [libp2p_secio_bytes_compare] by recursion on the two
    arrays; [bytes_compare_from_list] relates the two. *)
Fixpoint bytes_compare_list (k : char_kind) (a b : bytes) (n : nat)
  {struct n} : option Z :=
  match n with
  | O => Some 0
  | S n' =>
      match b, a with
      | bi :: b', ai :: a' =>
          if char_value k bi >? char_value k ai then Some (-1)
          else if char_value k ai >? char_value k bi then Some 1
          else bytes_compare_list k a' b' n'
      | _, _ => None
      end
  end.

(** ** [libp2p_secio_split_list] and [libp2p_secio_select_best] *)

(** [struct StringList]: a singly linked list of strings. *)
Definition StringList := list bytes.

Definition comma : bytes := bs ",".

(** [malloc] and [strcpy] of a C string: the returned [int] and the copy
    stored in [*out]. *)
Definition libp2p_secio_string_allocate (in_ : bytes) : Z * bytes := (1, in_).

(** The [while (curr_tok != NULL)] loop: a copy of every token is appended
    at the tail.  [fuel] bounds the number of iterations. *)
Fixpoint split_list_loop (fuel : nat) (rest : bytes) : StringList :=
  match fuel with
  | O => []
  | S fuel' =>
      match strtok comma rest with
      | None => []
      | Some (curr_tok, rest') =>
          let (_, string) := libp2p_secio_string_allocate curr_tok in
          string :: split_list_loop fuel' rest'
      end
  end.

(** [copy] holds the [list_size] bytes of [list] and a NUL. *)
Definition libp2p_secio_split_list (list : bytes) : StringList :=
  let copy := c_str list in
  split_list_loop (S (List.length copy)) copy.

(** The inner [while (follower != NULL)] loop: [true] when it leaves by
    [break] with [match = 1]. *)
Fixpoint scan_follower (lead_string : bytes) (follower : StringList) : bool :=
  match follower with
  | [] => false
  | follower_string :: next =>
      if strcmp lead_string follower_string =? 0 then true
      else scan_follower lead_string next
  end.

(** The outer [while (lead != NULL)] loop: the value of [match] and the
    cursor [lead] when the loop is left.  Every run of the inner loop
    starts at [follower_head]. *)
Fixpoint scan_lead (lead follower_head : StringList) : bool * StringList :=
  match lead with
  | [] => (false, [])
  | lead_string :: next =>
      if scan_follower lead_string follower_head then (true, lead)
      else scan_lead next follower_head
  end.

(** [results] is the value of [*results] at the call; the function returns
    its [int] result and the value of [*results] afterwards.  With
    [order == 0] and a local list without token, [lead_head] is NULL and is
    dereferenced. *)
Definition libp2p_secio_select_best (order : Z) (local_list remote_list : bytes)
  (results : option bytes) : option (Z * option bytes) :=
  let lead_head := libp2p_secio_split_list local_list in
  if order =? 0 then
    match lead_head with
    | [] => None
    | string :: _ =>
        let (_, out) := libp2p_secio_string_allocate string in
        Some (1, Some out)
    end
  else
    let (lead_head, follower_head) :=
      if order >? 0
      then (lead_head, libp2p_secio_split_list remote_list)
      else (libp2p_secio_split_list remote_list, lead_head) in
    let (match_, _) := scan_lead lead_head follower_head in
    if negb match_ then Some (0, results) else Some (1, results).

(** The lead and the follower list of a call whose order is not 0: the
    local list leads when [order > 0], the remote list otherwise. *)
Definition lead_of (order : Z) (local_list remote_list : bytes) : StringList :=
  if order >? 0 then libp2p_secio_split_list local_list
  else libp2p_secio_split_list remote_list.

Definition follower_of (order : Z) (local_list remote_list : bytes)
  : StringList :=
  if order >? 0 then libp2p_secio_split_list remote_list
  else libp2p_secio_split_list local_list.

(** ** [libp2p_secio_generate_nonce] *)

(** [fread(ptr, 1, nmemb, stream)]: the stream delivers a prefix of what it
    holds, at most [nmemb] bytes, written over the start of [ptr].  Writing
    past the end of [ptr] has no result.  A count above [SSIZE_MAX], which
    is what a negative [int] becomes, makes the read fail: nothing is
    written. *)
Definition fread (ptr : bytes) (nmemb : Z) (stream : bytes) : option bytes :=
  if 2 ^ 63 <=? nmemb then Some ptr else
  let n := Nat.min (Z.to_nat nmemb) (List.length stream) in
  if (n <=? List.length ptr)%nat
  then Some (firstn n stream ++ skipn n ptr)
  else None.

(** [dev_urandom] is what [fopen("/dev/urandom", "r")] gives: [None] for a
    NULL stream, which the function hands to [fread] unchecked.  The result
    is the returned [int] and the buffer afterwards. *)
Definition libp2p_secio_generate_nonce (dev_urandom : option bytes)
  (results : bytes) (length : Z) : option (Z * bytes) :=
  match dev_urandom with
  | None => None
  | Some fd =>
      match fread results (to_size_t length) fd with
      | None => None
      | Some results' => Some (1, results')
      end
  end.

(** ** The structures of the handshake *)

(** [struct Propose]; every size field is the length of its buffer. *)
Record Propose := {
  public_key : bytes;
  rand : bytes;
  exchanges : bytes;
  ciphers : bytes;
  hashes : bytes
}.

(** [struct Exchange].  [epubkey] with [epubkey_size] is one buffer; the
    signature and [signature_size] are kept apart, since
    [libp2p_secio_sign] assigns the first and not the second. *)
Record Exchange := {
  epubkey : bytes;
  signature : bytes;
  signature_size : Z
}.

(** Modelled from the spec: the key type tag of [libp2p/crypto/key.h], which
    the handshake only tests against [KEYTYPE_RSA] (a tagged key: type tag
    and raw bytes). *)
Inductive KeyType : Set :=
| KEYTYPE_RSA
| KEYTYPE_ED25519
| KEYTYPE_INVALID.

Definition KeyType_eqb (a b : KeyType) : bool :=
  match a, b with
  | KEYTYPE_RSA, KEYTYPE_RSA => true
  | KEYTYPE_ED25519, KEYTYPE_ED25519 => true
  | KEYTYPE_INVALID, KEYTYPE_INVALID => true
  | _, _ => false
  end.

(** [struct PublicKey] and [struct PrivateKey]: a type tag and the key
    bytes. *)
Record Key := {
  key_type : KeyType;
  key_data : bytes
}.

Definition PublicKey := Key.
Definition PrivateKey := Key.

(** [struct RsaPrivateKey], of which the handshake reads [der]. *)
Record RsaPrivateKey := {
  der : bytes
}.

(** The fields of [struct SecureSession] the handshake touches.  A [char*]
    field that was never assigned is [None]. *)
Record SecureSession := {
  socket_descriptor : Z;
  nonce : bytes;
  chosen_curve : option bytes;
  chosen_cipher : option bytes;
  chosen_hash : option bytes;
  ephemeral_public_key : bytes
}.

Definition set_nonce (s : SecureSession) (n : bytes) : SecureSession :=
  {| socket_descriptor := socket_descriptor s;
     nonce := n;
     chosen_curve := chosen_curve s;
     chosen_cipher := chosen_cipher s;
     chosen_hash := chosen_hash s;
     ephemeral_public_key := ephemeral_public_key s |}.

Definition set_chosen (s : SecureSession) (curve cipher hash : option bytes)
  : SecureSession :=
  {| socket_descriptor := socket_descriptor s;
     nonce := nonce s;
     chosen_curve := curve;
     chosen_cipher := cipher;
     chosen_hash := hash;
     ephemeral_public_key := ephemeral_public_key s |}.

Definition SupportedExchanges : bytes := bs "P-256,P-384,P-521".
Definition SupportedCiphers : bytes := bs "AES-256,AES-128,Blowfish".
Definition SupportedHashes : bytes := bs "SHA256,SHA512".

(** ** What the handshake calls outside of [secio.c] *)

(** The transport, the codecs and the cryptographic primitives are not part
    of the file; the handshake is stated over any behaviour of them.
    - [libp2p_net_multistream_receive n fd] is the [n]-th receive on the
      socket: the returned [int] and the buffer stored in [*results]
      ([None] when the call leaves the NULL it found there).
    - A decoder gives [None] when it returns 0.
    - [libp2p_secio_propose_protobuf_encode] is the Propose encoder of
      [propose.h].  [secio.c] does not call it; it names the encoded bytes
      of a Propose where a statement speaks of them.
    - [libp2p_secio_exchange_new] is the Exchange a call of that function
      returns.
    - [libp2p_crypto_ephemeral_key_generate curve] is the [int] that call
      returns for the curve name it is given ([None] for a NULL name); it
      has no result when the call does not return.
    - [read_after_free n buf] is what the [n]-th read yields through
      [propose_in_bytes], which points into the receive buffer the
      handshake has freed; [buf] is what the buffer held.  The read is
      outside of what C defines: it may yield any bytes, or nothing.
    - [uninitialised_key_type] is what reading the [type] of the
      [struct PrivateKey] yields that the handshake builds on its stack
      without assigning it: any value, or nothing. *)
Record World := {
  char_abi : char_kind;
  libp2p_net_multistream_send : Z -> bytes -> Z;
  libp2p_net_multistream_receive : nat -> Z -> Z * option bytes;
  dev_urandom : option bytes;
  libp2p_secio_propose_protobuf_decode : bytes -> option Propose;
  libp2p_crypto_public_key_protobuf_decode : bytes -> option PublicKey;
  libp2p_crypto_hashing_sha256 : bytes -> Z * bytes;
  libp2p_crypto_rsa_sign : bytes -> bytes -> Z * bytes;
  libp2p_crypto_rsa_verify : bytes -> bytes -> bytes -> Z;
  libp2p_secio_exchange_protobuf_encode : Exchange -> bytes;
  libp2p_secio_exchange_protobuf_decode : bytes -> option Exchange;
  libp2p_secio_propose_protobuf_encode : Propose -> bytes;
  libp2p_secio_exchange_new : Exchange;
  libp2p_crypto_ephemeral_key_generate : option bytes -> option Z;
  read_after_free : nat -> bytes -> option bytes;
  uninitialised_key_type : option KeyType
}.

(** What a run of the handshake does that can be observed from outside. *)
Inductive Event : Type :=
| ev_send (data : bytes)
| ev_receive (results : option bytes)
| ev_sign (transcript : bytes)
| ev_verify (key : PublicKey) (transcript : bytes) (sig : bytes) (ok : Z)
| ev_secio_write (data : bytes)
| ev_secio_read (results : bytes).

(** The statement after which the handshake reaches its [exit] label. *)
Inductive ExitPoint : Set :=
| exit_send
| exit_protocol
| exit_newline
| exit_propose_decode
| exit_public_key_decode
| exit_nonce
| exit_signature
| exit_confirm_size
| exit_confirm_compare
| exit_completed.

Record Run := {
  retVal : Z;
  left_at : ExitPoint;
  trace : list Event;
  session : SecureSession
}.

(** The buffers handed to [libp2p_net_multistream_send], in order. *)
Fixpoint sent_messages (tr : list Event) : list bytes :=
  match tr with
  | [] => []
  | ev_send data :: tr' => data :: sent_messages tr'
  | _ :: tr' => sent_messages tr'
  end.

(** The transcripts handed to [libp2p_secio_verify_signature], in order. *)
Fixpoint verify_transcripts (tr : list Event) : list bytes :=
  match tr with
  | [] => []
  | ev_verify _ transcript _ _ :: tr' => transcript :: verify_transcripts tr'
  | _ :: tr' => verify_transcripts tr'
  end.

(** The buffer a receive call leaves in [results] and [results_size]: the
    NULL pointer has size 0. *)
Definition buffer_of (results : option bytes) : bytes :=
  match results with
  | Some buf => buf
  | None => []
  end.

(** The part of a response that comes before its first newline. *)
Definition before_newline (response : bytes) : bytes :=
  match strchr response newline with
  | Some offset => firstn offset response
  | None => response
  end.

Definition leave (retVal : Z) (at_ : ExitPoint) (tr : list Event)
  (s : SecureSession) : option Run :=
  Some {| retVal := retVal; left_at := at_; trace := tr; session := s |}.

(** ** The functions of [secio.c] the handshake calls *)

Definition libp2p_secio_hash (w : World) (in_ : Propose) : Z * bytes :=
  libp2p_crypto_hashing_sha256 w (public_key in_ ++ rand in_).

Definition libp2p_secio_verify_signature (w : World) (public_key : PublicKey)
  (in_ : bytes) (signature : bytes) : Z :=
  if KeyType_eqb (key_type public_key) KEYTYPE_RSA
  then libp2p_crypto_rsa_verify w (key_data public_key) in_ signature
  else 0.

(** [signature] and [signature_size] are the values of [*signature] and
    [*signature_size] at the call; the result is the returned [int] and the
    two values afterwards.  [*signature_size] is never assigned. *)
Definition libp2p_secio_sign (w : World) (private_key : PrivateKey)
  (in_ : bytes) (signature : bytes) (signature_size : Z) : Z * bytes * Z :=
  if KeyType_eqb (key_type private_key) KEYTYPE_RSA
  then
    let (r, signed) := libp2p_crypto_rsa_sign w (key_data private_key) in_ in
    (r, signed, signature_size)
  else (0, signature, signature_size).

Definition libp2p_secio_stretch_keys (local_session remote_session : SecureSession)
  (order_preference : Z) : Z := 0.

Definition libp2p_secio_make_mac_and_cipher (session : SecureSession) : Z := 0.

Definition libp2p_secio_write (session : SecureSession) (data : bytes) : Z := 0.

(** [bytes] is the buffer [*bytes] and [*bytes_read] describe at the call;
    the function assigns neither. *)
Definition libp2p_secio_read (session : SecureSession) (bytes_ : bytes)
  : Z * bytes := (0, bytes_).

Definition protocol : bytes := bs "/secio/1.0.0" ++ [newline].

(** [propose_out_bytes] and [propose_out_size] are initialised to NULL and 0
    and not assigned afterwards. *)
Definition propose_out_bytes : bytes := [].

(** ** [libp2p_secio_handshake] *)

(** The body of the handshake, statement by statement; a [goto exit] is a
    [leave].  Allocation ([malloc], [libp2p_utils_vector_new]) is taken to
    succeed, so the NULL tests on it are never taken.  One call whose result
    the function never reads is left out:
    [libp2p_crypto_public_key_to_peer_id]. *)
Definition libp2p_secio_handshake (w : World) (local_session : SecureSession)
  (private_key : RsaPrivateKey) : option Run :=
  let fd := socket_descriptor local_session in
  (* send the protocol line *)
  let bytes_written := to_size_t (libp2p_net_multistream_send w fd protocol) in
  let tr := [ev_send protocol] in
  if bytes_written <=? 0 then leave 0 exit_send tr local_session else
  (* the protocol line and the Propose of the peer *)
  let (r, results) := libp2p_net_multistream_receive w 0%nat fd in
  let tr := tr ++ [ev_receive results] in
  let bytes_written := to_size_t r in
  if bytes_written <? 1 then leave 0 exit_protocol tr local_session else
  match results with
  | None => None
  | Some results =>
  (* strstr and strchr read results as a C string *)
  match c_string results with
  | None => None
  | Some results_string =>
  match strstr results_string (bs "secio") with
  | None => leave 0 exit_protocol tr local_session
  | Some _ =>
  (* skip to the protobuf section *)
  match strchr results_string newline with
  | None => leave 0 exit_newline tr local_session
  | Some offset =>
  let propose_in_bytes := skipn (S offset) results in
  match libp2p_secio_propose_protobuf_decode w propose_in_bytes with
  | None => leave 0 exit_propose_decode tr local_session
  | Some propose_in =>
  (* free(results): propose_in_bytes dangles from here on *)
  match libp2p_crypto_public_key_protobuf_decode w (public_key propose_in) with
  | None => leave 0 exit_public_key_decode tr local_session
  | Some public_key_ =>
  (* generate 16 byte nonce *)
  match libp2p_secio_generate_nonce (dev_urandom w) (nonce local_session) 16 with
  | None => None
  | Some (generated, nonce') =>
  let local_session := set_nonce local_session nonce' in
  if generated =? 0 then leave 0 exit_nonce tr local_session else
  (* our Propose; its public key is copied from the key decoded above *)
  let propose_out :=
    {| rand := firstn 16 (nonce local_session);
       public_key := key_data public_key_;
       exchanges := SupportedExchanges;
       ciphers := SupportedCiphers;
       hashes := SupportedHashes |} in
  (* first determine order *)
  let order_hash_in := snd (libp2p_secio_hash w propose_in) in
  let order_hash_out := snd (libp2p_secio_hash w propose_out) in
  match libp2p_secio_bytes_compare (char_abi w) order_hash_in order_hash_out 32 with
  | None => None
  | Some order =>
  (* curve, cipher, hash: the three results are not tested *)
  match libp2p_secio_select_best order (exchanges propose_out)
          (exchanges propose_in) (chosen_curve local_session) with
  | None => None
  | Some (_, curve) =>
  match libp2p_secio_select_best order (ciphers propose_out)
          (ciphers propose_in) (chosen_cipher local_session) with
  | None => None
  | Some (_, cipher) =>
  match libp2p_secio_select_best order (hashes propose_out)
          (hashes propose_in) (chosen_hash local_session) with
  | None => None
  | Some (_, hash) =>
  let local_session := set_chosen local_session curve cipher hash in
  let remote_session := local_session in
  (* generate EphemeralPubKey: into e_private_key, which is not read *)
  match libp2p_crypto_ephemeral_key_generate w (chosen_curve local_session) with
  | None => None
  | Some _ =>
  (* build buffer to sign *)
  match read_after_free w 0%nat propose_in_bytes with
  | None => None
  | Some stale_in_bytes =>
  let char_buffer :=
    stale_in_bytes ++ propose_out_bytes ++ ephemeral_public_key local_session in
  (* send Exchange packet *)
  let exchange_out := libp2p_secio_exchange_new w in
  match uninitialised_key_type w with
  | None => None
  | Some priv_type =>
  let priv := {| key_type := priv_type; key_data := der private_key |} in
  let '(_, signature_, signature_size_) :=
    libp2p_secio_sign w priv char_buffer (signature exchange_out)
      (signature_size exchange_out) in
  let exchange_out :=
    {| epubkey := ephemeral_public_key local_session;
       signature := signature_;
       signature_size := signature_size_ |} in
  let exchange_out_protobuf :=
    libp2p_secio_exchange_protobuf_encode w exchange_out in
  let _ := libp2p_net_multistream_send w fd exchange_out_protobuf in
  let tr := tr ++ [ev_sign char_buffer; ev_send exchange_out_protobuf] in
  (* receive Exchange packet *)
  let (_, received) := libp2p_net_multistream_receive w 1%nat fd in
  let tr := tr ++ [ev_receive received] in
  let results := buffer_of received in
  match libp2p_secio_exchange_protobuf_decode w results with
  | None => None
  | Some exchange_in =>
  (* parse and verify *)
  let remote_session :=
    {| socket_descriptor := socket_descriptor remote_session;
       nonce := nonce remote_session;
       chosen_curve := chosen_curve remote_session;
       chosen_cipher := chosen_cipher remote_session;
       chosen_hash := chosen_hash remote_session;
       ephemeral_public_key := epubkey exchange_in |} in
  match read_after_free w 1%nat propose_in_bytes with
  | None => None
  | Some stale_in_bytes =>
  let char_buffer :=
    stale_in_bytes ++ propose_out_bytes ++ ephemeral_public_key remote_session in
  let verified :=
    libp2p_secio_verify_signature w public_key_ char_buffer
      (signature exchange_in) in
  let tr :=
    tr ++ [ev_verify public_key_ char_buffer (signature exchange_in) verified] in
  if verified =? 0 then leave 0 exit_signature tr local_session else
  (* stretching, MAC and cipher *)
  let _ := libp2p_secio_stretch_keys local_session remote_session order in
  let _ := libp2p_secio_make_mac_and_cipher local_session in
  let _ := libp2p_secio_make_mac_and_cipher remote_session in
  (* send the local nonce, read the reply *)
  let _ := libp2p_secio_write local_session (firstn 16 (nonce local_session)) in
  let (_, results) := libp2p_secio_read local_session results in
  let results_size := Z.of_nat (List.length results) in
  let tr :=
    tr ++ [ev_secio_write (firstn 16 (nonce local_session));
           ev_secio_read results] in
  if negb (results_size =? 16) then leave 0 exit_confirm_size tr local_session
  else
  match libp2p_secio_bytes_compare (char_abi w) results (nonce local_session) 16 with
  | None => None
  | Some compared =>
  if negb (compared =? 0) then leave 0 exit_confirm_compare tr local_session
  else leave 1 exit_completed tr local_session
  end end end end end end end end end end end end end end end end end.

(** ** A scripted peer, to run the handshake *)

(** A world in which every external call succeeds: the peer answers the
    protocol line with [response], offers [peer_exchanges], and its Exchange
    message is [reply]; signatures verify when [verify_result] is not 0.
    The freed buffer still holds what it held, the type of the key on the
    stack happens to be RSA, and a new Exchange has no signature and the
    signature size 0. *)
Definition scripted_world (response peer_exchanges reply : bytes)
  (verify_result : Z) : World :=
  {| char_abi := char_signed;
     libp2p_net_multistream_send := fun _ data => Z.of_nat (List.length data);
     libp2p_net_multistream_receive := fun n _ =>
       match n with
       | O => (Z.of_nat (List.length response), Some response)
       | _ => (Z.of_nat (List.length reply), Some reply)
       end;
     dev_urandom := Some (bs "0123456789abcdefghij");
     libp2p_secio_propose_protobuf_decode := fun _ =>
       Some {| public_key := bs "REMOTE-KEY";
               rand := bs "fedcba9876543210";
               exchanges := peer_exchanges;
               ciphers := bs "AES-128,AES-256";
               hashes := bs "SHA512,SHA256" |};
     libp2p_crypto_public_key_protobuf_decode := fun buf =>
       Some {| key_type := KEYTYPE_RSA; key_data := buf |};
     libp2p_crypto_hashing_sha256 := fun buf =>
       (1, firstn 32 (rev buf ++ repeat x00 32));
     libp2p_crypto_rsa_sign := fun _ _ => (1, repeat x2a 32);
     libp2p_crypto_rsa_verify := fun _ _ _ => verify_result;
     libp2p_secio_exchange_protobuf_encode := fun e =>
       epubkey e ++ firstn (Z.to_nat (signature_size e)) (signature e);
     libp2p_secio_exchange_protobuf_decode := fun buf =>
       Some {| epubkey := bs "PEER-EPHEMERAL";
               signature := buf;
               signature_size := Z.of_nat (List.length buf) |};
     libp2p_secio_propose_protobuf_encode := fun p =>
       public_key p ++ rand p ++ exchanges p ++ ciphers p ++ hashes p;
     libp2p_secio_exchange_new :=
       {| epubkey := []; signature := []; signature_size := 0 |};
     libp2p_crypto_ephemeral_key_generate := fun _ => Some 1;
     read_after_free := fun _ buf => Some buf;
     uninitialised_key_type := Some KEYTYPE_RSA |}.

Definition fresh_session : SecureSession :=
  {| socket_descriptor := 3;
     nonce := repeat x00 16;
     chosen_curve := None;
     chosen_cipher := None;
     chosen_hash := None;
     ephemeral_public_key := bs "LOCAL-EPHEMERAL" |}.

Definition test_key : RsaPrivateKey := {| der := bs "PRIVATE-DER" |}.

(** The answer of a peer, with a NUL behind the Propose. *)
Definition accept_line : bytes :=
  bs "/secio/1.0.0" ++ [newline] ++ bs "REMOTE-PROPOSE" ++ [NUL].

Definition echoed_nonce : bytes := bs "0123456789abcdef".

(** A response whose only "secio" comes after its first newline. *)
Definition late_secio_line : bytes :=
  bs "ok" ++ [newline] ++ bs "secio" ++ [NUL].

(** The Propose the handshake builds for the local side when it talks to
    the scripted peer. *)
Definition scripted_propose_out : Propose :=
  {| public_key := bs "REMOTE-KEY";
     rand := echoed_nonce;
     exchanges := SupportedExchanges;
     ciphers := SupportedCiphers;
     hashes := SupportedHashes |}.

(** ** Negotiation lists as they are written *)

(** The comma separated string of a list of tokens, the form in which a
    Propose carries its [exchanges], [ciphers] and [hashes]. *)
Fixpoint join_list (tokens : StringList) : bytes :=
  match tokens with
  | [] => []
  | [token] => token
  | token :: next => token ++ comma ++ join_list next
  end.

(** A token as [libp2p_secio_split_list] produces them: not empty, without
    separator and without NUL. *)
Definition well_formed_token (token : bytes) : Prop :=
  token <> [] /\ ~ In x2c token /\ ~ In NUL token.

(** ** [identify/identify.c] *)

(** The identify protocol line, 15 bytes. *)
Definition identify_protocol : bytes := bs "/ipfs/id/1.0.0" ++ [newline].

(** [strncmp(s1, s2, n)], with [s1] a C string and [s2] a buffer of known
    size: the bytes are compared as [unsigned char] until they differ, [s1]
    ends or [n] bytes are done.  There is no result when [s2] is read past
    its end. *)
Fixpoint strncmp (s1 s2 : bytes) (n : nat) {struct n} : option Z :=
  match n with
  | O => Some 0
  | S n' =>
      match s2 with
      | [] => None
      | c2 :: s2' =>
          let c1 := hd NUL s1 in
          if uchar_value c1 <? uchar_value c2 then Some (-1)
          else if uchar_value c2 <? uchar_value c1 then Some 1
          else if Byte.eqb c1 NUL then Some 0
          else strncmp (tl s1) s2' n'
      end
  end.

(** [msg->data] with [msg->data_size] is [data].  [varint_decode] is the
    decoder of [varint.h], not part of the file: [varint_decode data] is the
    value it stores in [num_bytes].  [protocol_size - num_bytes] is computed
    in [size_t]. *)
Definition libp2p_identify_can_handle (varint_decode : bytes -> Z)
  (data : bytes) : option Z :=
  let protocol := identify_protocol in
  let protocol_size := Z.of_nat (List.length protocol) in
  match nth_error data 0 with
  | None => None
  | Some d0 =>
      let skipped :=
        if negb (Byte.eqb d0 (nth 0 protocol NUL)) then
          match nth_error data 1 with
          | None => None
          | Some d1 =>
              if negb (Byte.eqb d1 (nth 1 protocol NUL))
              then Some (to_size_t (varint_decode data))
              else Some 0
          end
        else Some 0 in
      match skipped with
      | None => None
      | Some num_bytes =>
          if Z.of_nat (List.length data) >=? to_size_t (protocol_size - num_bytes)
          then
            match strncmp protocol (skipn (Z.to_nat num_bytes) data)
                    (Z.to_nat protocol_size) with
            | None => None
            | Some compared => if compared =? 0 then Some 1 else Some 0
            end
          else Some 0
      end
  end.

(** [struct Stream], as far as the file uses it: what the [write], [read]
    and [close] of a stream give when they are called on its context.
    [read timeout] is the returned [int] and the message stored in
    [*results] ([None] for NULL), of which [data] is kept. *)
Record Stream := {
  write : bytes -> Z;
  read : Z -> Z * option bytes;
  close : Z
}.

(** The returned [int]. *)
Definition libp2p_identify_send_protocol (parent_stream : Stream) : Z :=
  let protocol := identify_protocol in
  if write parent_stream protocol =? 0 then 0 else 1.

(** [strstr] reads the message from [start] on as a C string: there is no
    result when the message has no NUL from there on. *)
Definition libp2p_identify_receive_protocol (parent_stream : Stream)
  : option Z :=
  let protocol := identify_protocol in
  let (r, results) := read parent_stream 30 in
  if r =? 0 then Some 0 else
  match results with
  | None => None
  | Some data =>
      match nth_error data 0 with
      | None => None
      | Some d0 =>
          (* the first byte may be the size, so skip it *)
          let start := if negb (Byte.eqb d0 x2f) then 1%nat else 0%nat in
          match c_string (skipn start data) with
          | None => None
          | Some data_string =>
              match strstr data_string protocol with
              | None => Some 0
              | Some offset => if (1 <? offset)%nat then Some 0 else Some 1
              end
          end
      end
  end.

(** * Part II: properties *)

(** ** Bytes *)

Lemma uchar_value_range (c : byte) : 0 <= uchar_value c <= 255.
Proof.
  unfold uchar_value. pose proof (Byte.to_N_bounded c). lia.
Qed.

Lemma uchar_value_inj (c d : byte) : uchar_value c = uchar_value d -> c = d.
Proof.
  unfold uchar_value. intros H. apply N2Z.inj in H.
  pose proof (Byte.of_to_N c) as Hc. rewrite H, Byte.of_to_N in Hc.
  congruence.
Qed.

Lemma char_value_inj (k : char_kind) (c d : byte) :
  char_value k c = char_value k d -> c = d.
Proof.
  pose proof (uchar_value_range c). pose proof (uchar_value_range d).
  destruct k; simpl; intros E; apply uchar_value_inj.
  - destruct (128 <=? uchar_value c) eqn:Ec;
      destruct (128 <=? uchar_value d) eqn:Ed; lia.
  - exact E.
Qed.

(** ** The comparison loop *)

Section CompareLoop.

Variable k : char_kind.

Lemma bytes_compare_from_cons x y a b i n :
  bytes_compare_from k (x :: a) (y :: b) (S i) n = bytes_compare_from k a b i n.
Proof.
  revert i. induction n as [|n IH]; intros i; simpl; [reflexivity|].
  destruct (nth_error b i), (nth_error a i); try reflexivity.
  rewrite IH. reflexivity.
Qed.

Lemma bytes_compare_from_list a b n :
  bytes_compare_from k a b 0 n = bytes_compare_list k a b n.
Proof.
  revert a b. induction n as [|n IH]; intros a b; simpl; [reflexivity|].
  destruct b as [|bi b'], a as [|ai a']; simpl; try reflexivity.
  rewrite bytes_compare_from_cons, IH. reflexivity.
Qed.

Lemma bytes_compare_list_swap a b n :
  bytes_compare_list k a b n = Some 1 -> bytes_compare_list k b a n = Some (-1).
Proof.
  revert a b. induction n as [|n IH]; intros a b; simpl; [discriminate|].
  destruct b as [|bi b'], a as [|ai a']; try discriminate.
  destruct (char_value k bi >? char_value k ai) eqn:E1; [discriminate|].
  destruct (char_value k ai >? char_value k bi) eqn:E2; [reflexivity|].
  apply IH.
Qed.

Lemma bytes_compare_list_refl a n :
  (n <= List.length a)%nat -> bytes_compare_list k a a n = Some 0.
Proof.
  revert a. induction n as [|n IH]; intros a Hn; simpl; [reflexivity|].
  destruct a as [|x a']; simpl in Hn; [lia|].
  rewrite Z.gtb_ltb, Z.ltb_irrefl. apply IH. lia.
Qed.

Lemma bytes_compare_list_zero a b n :
  bytes_compare_list k a b n = Some 0 -> firstn n a = firstn n b.
Proof.
  revert a b. induction n as [|n IH]; intros a b; simpl; [reflexivity|].
  destruct b as [|bi b'], a as [|ai a']; try discriminate.
  destruct (char_value k bi >? char_value k ai) eqn:E1; [discriminate|].
  destruct (char_value k ai >? char_value k bi) eqn:E2; [discriminate|].
  intros H. f_equal; [|apply IH, H].
  apply (char_value_inj k). lia.
Qed.

End CompareLoop.

Lemma bytes_compare_list_unsigned a b n :
  List.length a = n -> List.length b = n ->
  bytes_compare_list char_unsigned a b n = Some (unsigned_lex_compare a b).
Proof.
  revert a b. induction n as [|n IH]; intros a b Ha Hb.
  - destruct a, b; try discriminate. reflexivity.
  - destruct a as [|ai a'], b as [|bi b']; try discriminate. simpl.
    rewrite !Z.gtb_ltb.
    destruct (uchar_value ai <? uchar_value bi); [reflexivity|].
    destruct (uchar_value bi <? uchar_value ai); [reflexivity|].
    apply IH; simpl in *; lia.
Qed.

(** ** Tokens *)

Lemma strcmp_eq (a b : bytes) : strcmp a b = 0 <-> a = b.
Proof.
  revert b. induction a as [|x a IH]; intros [|y b]; simpl;
    try (split; [lia | discriminate]); [tauto|].
  destruct (uchar_value x <? uchar_value y) eqn:E1.
  - split; [lia|]. intros [= -> _]. lia.
  - destruct (uchar_value y <? uchar_value x) eqn:E2.
    + split; [lia|]. intros [= -> _]. lia.
    + rewrite IH. split.
      * intros ->. f_equal. apply uchar_value_inj. lia.
      * intros [= _ ->]. reflexivity.
Qed.

Lemma skip_delims_length delim s :
  (List.length (skip_delims delim s) <= List.length s)%nat.
Proof.
  induction s as [|c s IH]; simpl; [lia|].
  destruct (is_delim delim c); simpl; lia.
Qed.

Lemma span_token_length delim s tok rest :
  s <> [] -> span_token delim s = (tok, rest) ->
  (List.length rest < List.length s)%nat.
Proof.
  revert tok rest. induction s as [|c s IH]; intros tok rest Hs; [congruence|].
  simpl. destruct (is_delim delim c).
  - intros [= _ <-]. lia.
  - destruct (span_token delim s) as [tok' rest'] eqn:E. intros [= _ <-].
    destruct s as [|d s'].
    + simpl in E. injection E as _ <-. simpl. lia.
    + specialize (IH tok' rest'). simpl in *.
      assert (d :: s' <> []) as Hne by discriminate.
      specialize (IH Hne eq_refl). lia.
Qed.

Lemma strtok_length delim s tok rest :
  strtok delim s = Some (tok, rest) ->
  (List.length rest < List.length s)%nat.
Proof.
  unfold strtok. pose proof (skip_delims_length delim s) as Hlen.
  destruct (skip_delims delim s) as [|c s1] eqn:E; [discriminate|].
  intros H.
  assert (span_token delim (c :: s1) = (tok, rest)) as Hspan by congruence.
  apply span_token_length in Hspan; [|discriminate]. lia.
Qed.

(** The bound [libp2p_secio_split_list] gives to the loop is enough: more
    iterations find no further token. *)
Lemma split_list_loop_fuel fuel1 fuel2 s :
  (List.length s < fuel1)%nat -> (List.length s < fuel2)%nat ->
  split_list_loop fuel1 s = split_list_loop fuel2 s.
Proof.
  revert fuel2 s. induction fuel1 as [|fuel1 IH]; intros fuel2 s H1 H2; [lia|].
  destruct fuel2 as [|fuel2]; [lia|]. simpl.
  destruct (strtok comma s) as [[tok rest]|] eqn:E; [|reflexivity].
  apply strtok_length in E. f_equal. apply IH; lia.
Qed.

Example split_list_supported :
  libp2p_secio_split_list SupportedExchanges
  = [bs "P-256"; bs "P-384"; bs "P-521"].
Proof.
  reflexivity.
Qed.

(** [strtok] drops empty segments and stops at the first NUL. *)
Example split_list_empty_segments :
  libp2p_secio_split_list (bs ",,AES-256,,AES-128," ++ [NUL] ++ bs "Blowfish")
  = [bs "AES-256"; bs "AES-128"]
  /\ libp2p_secio_split_list (bs ",") = [].
Proof.
  split; reflexivity.
Qed.

Lemma scan_follower_In (lead_string : bytes) (follower : StringList) :
  scan_follower lead_string follower = true <-> In lead_string follower.
Proof.
  induction follower as [|f next IH]; simpl; [split; [discriminate|tauto]|].
  destruct (strcmp lead_string f =? 0) eqn:E.
  - apply Z.eqb_eq, strcmp_eq in E. subst. tauto.
  - rewrite IH. split; [tauto|]. intros [->|H]; [|exact H].
    apply Z.eqb_neq in E. exfalso. apply E, strcmp_eq. reflexivity.
Qed.

Lemma scan_lead_found (lead follower_head : StringList) (t : bytes) :
  In t lead -> In t follower_head ->
  exists skipped chosen rest,
    scan_lead lead follower_head = (true, chosen :: rest)
    /\ lead = skipped ++ chosen :: rest
    /\ In chosen follower_head
    /\ (forall s, In s skipped -> ~ In s follower_head).
Proof.
  induction lead as [|l next IH]; intros Hl Hf; [contradiction|]. simpl.
  destruct (scan_follower l follower_head) eqn:E.
  - exists [], l, next. apply scan_follower_In in E. simpl. tauto.
  - destruct Hl as [->|Hl].
    + apply scan_follower_In in Hf. congruence.
    + destruct (IH Hl Hf) as (skipped & chosen & rest & Hs & -> & Hc & Hskip).
      exists (l :: skipped), chosen, rest. repeat split; auto.
      intros s [<-|Hin]; [|auto]. rewrite <- scan_follower_In. congruence.
Qed.

Lemma scan_lead_none (lead follower_head : StringList) :
  (forall t, In t lead -> ~ In t follower_head) ->
  scan_lead lead follower_head = (false, []).
Proof.
  induction lead as [|l next IH]; intros H; [reflexivity|]. simpl.
  destruct (scan_follower l follower_head) eqn:E.
  - apply scan_follower_In in E. exfalso. apply (H l); simpl; auto.
  - apply IH. intros t Ht. apply H. simpl. auto.
Qed.

(** ** The parameter selector *)

Section Selector.

Variables (local_list remote_list : bytes) (results : option bytes).

Lemma select_best_search (order : Z) :
  order <> 0 ->
  libp2p_secio_select_best order local_list remote_list results =
  if fst (scan_lead (lead_of order local_list remote_list)
            (follower_of order local_list remote_list))
  then Some (1, results) else Some (0, results).
Proof.
  intros Ho. unfold libp2p_secio_select_best, lead_of, follower_of.
  apply Z.eqb_neq in Ho. rewrite Ho.
  destruct (order >? 0);
    match goal with |- context [scan_lead ?l ?f] =>
      destruct (scan_lead l f) as [[|] cursor] end; reflexivity.
Qed.

(** C1 (as the code has it): when the two lists share a token the call
    returns 1 for every order.  With order 0 the first token of the local
    list is stored in [*results], whether the remote list has it or not.
    With another order the search stops with [lead] on the first lead token
    that the follower list contains. *)
Theorem select_best_shared_token (order : Z) (t : bytes) :
  In t (libp2p_secio_split_list local_list) ->
  In t (libp2p_secio_split_list remote_list) ->
  exists stored,
    libp2p_secio_select_best order local_list remote_list results
      = Some (1, stored)
    /\ (order = 0 ->
        stored = head (libp2p_secio_split_list local_list) /\ stored <> None)
    /\ (order <> 0 ->
        exists skipped chosen rest,
          scan_lead (lead_of order local_list remote_list)
            (follower_of order local_list remote_list) = (true, chosen :: rest)
          /\ lead_of order local_list remote_list = skipped ++ chosen :: rest
          /\ In chosen (follower_of order local_list remote_list)
          /\ (forall s, In s skipped ->
                        ~ In s (follower_of order local_list remote_list))).
Proof.
  intros Hl Hr. destruct (Z.eq_dec order 0) as [->|Ho].
  - unfold libp2p_secio_select_best. simpl.
    destruct (libp2p_secio_split_list local_list) as [|first next];
      [contradiction|].
    exists (Some first). repeat split; try discriminate. congruence.
  - exists results. rewrite (select_best_search order Ho).
    assert (exists skipped chosen rest,
      scan_lead (lead_of order local_list remote_list)
        (follower_of order local_list remote_list) = (true, chosen :: rest)
      /\ lead_of order local_list remote_list = skipped ++ chosen :: rest
      /\ In chosen (follower_of order local_list remote_list)
      /\ (forall s, In s skipped ->
                    ~ In s (follower_of order local_list remote_list)))
      as Hfound.
    { unfold lead_of, follower_of.
      destruct (order >? 0); apply (scan_lead_found _ _ t); assumption. }
    destruct Hfound as (skipped & chosen & rest & Hs & Hrest).
    rewrite Hs. simpl. split; [reflexivity|]. split; [congruence|].
    intros _. exists skipped, chosen, rest. tauto.
Qed.

(** C2 (as the code has it): on two lists that share no token, the call
    returns 0 and leaves [*results] as it was when the order is not 0; with
    order 0 it does not fail: it returns 1 and stores the first local
    token. *)
Theorem select_best_no_shared_token (order : Z) :
  (forall t, In t (libp2p_secio_split_list local_list) ->
             ~ In t (libp2p_secio_split_list remote_list)) ->
  (order <> 0 ->
   libp2p_secio_select_best order local_list remote_list results
   = Some (0, results))
  /\ (order = 0 ->
      forall first next,
        libp2p_secio_split_list local_list = first :: next ->
        libp2p_secio_select_best order local_list remote_list results
        = Some (1, Some first)).
Proof.
  intros Hnone. split.
  - intros Ho. rewrite (select_best_search order Ho).
    rewrite scan_lead_none; [reflexivity|].
    unfold lead_of, follower_of. destruct (order >? 0); [exact Hnone|].
    intros t Hr Hl. exact (Hnone t Hl Hr).
  - intros -> first next H. unfold libp2p_secio_select_best. simpl.
    rewrite H. reflexivity.
Qed.

End Selector.

(** The lead list "P-256,P-384" against the follower list "P-384,P-256":
    the search stops on "P-256". *)
Lemma select_best_shared_token_witness :
  exists stored rest,
    libp2p_secio_select_best 1 (bs "P-256,P-384") (bs "P-384,P-256") None
      = Some (1, stored)
    /\ scan_lead (lead_of 1 (bs "P-256,P-384") (bs "P-384,P-256"))
         (follower_of 1 (bs "P-256,P-384") (bs "P-384,P-256"))
       = (true, bs "P-256" :: rest).
Proof.
  destruct (select_best_shared_token (bs "P-256,P-384") (bs "P-384,P-256")
              None 1 (bs "P-256")) as (stored & H & _ & Hlead).
  - vm_compute. auto.
  - vm_compute. auto.
  - destruct Hlead as (skipped & chosen & rest & Hscan & _); [lia|].
    exists stored, rest. split; [exact H|].
    rewrite Hscan. vm_compute in Hscan.
    injection Hscan as <- _. reflexivity.
Defined.

(** C1 as it is written fails twice.  With a non-zero order the match is
    found and 1 returned, and [*results] is left as it was; with order 0
    the first local token is stored although the remote list does not have
    it. *)
Lemma select_best_result_counterexample :
  libp2p_secio_select_best 1 (bs "P-256,P-384") (bs "P-384,P-256") None
    = Some (1, None)
  /\ libp2p_secio_select_best 0 (bs "P-256,P-384") (bs "P-384") None
    = Some (1, Some (bs "P-256"))
  /\ libp2p_secio_split_list (bs "P-384") = [bs "P-384"].
Proof.
  vm_compute. repeat split.
Qed.

Lemma select_best_no_shared_token_witness :
  libp2p_secio_select_best (-1) (bs "AES-256") (bs "Blowfish") None
    = Some (0, None)
  /\ libp2p_secio_select_best 0 (bs "AES-256") (bs "Blowfish") None
     = Some (1, Some (bs "AES-256")).
Proof.
  assert (forall t, In t (libp2p_secio_split_list (bs "AES-256")) ->
                    ~ In t (libp2p_secio_split_list (bs "Blowfish")))
    as Hnone.
  { vm_compute. intros t [<-|[]] [E|[]]. discriminate E. }
  split.
  - apply (select_best_no_shared_token (bs "AES-256") (bs "Blowfish") None
             (-1) Hnone). lia.
  - apply (proj2 (select_best_no_shared_token (bs "AES-256") (bs "Blowfish")
                    None 0 Hnone) eq_refl (bs "AES-256") []).
    vm_compute. reflexivity.
Defined.

(** A local list that has separators only has no first token: the call
    reads through the NULL [lead_head]. *)
Example select_best_order_zero_no_token :
  libp2p_secio_select_best 0 (bs ",") (bs "P-256") None = None.
Proof.
  reflexivity.
Qed.


(** ** The ordering resolver *)

Lemma bytes_compare_unsigned_char (a b : bytes) :
  List.length a = 32%nat -> List.length b = 32%nat ->
  libp2p_secio_bytes_compare char_unsigned a b 32
  = Some (unsigned_lex_compare a b).
Proof.
  intros Ha Hb. unfold libp2p_secio_bytes_compare.
  rewrite bytes_compare_from_list.
  apply bytes_compare_list_unsigned; assumption.
Qed.

(** C7, where plain [char] is signed: the remote hash starts with 0x80, the
    local hash with 0x01.  As unsigned bytes the remote hash is the larger
    one and the result should be +1; the function reads -128 against 1 and
    returns -1. *)
Theorem bytes_compare_signed_char :
  let remote := x80 :: repeat x00 31 in
  let local := x01 :: repeat x00 31 in
  libp2p_secio_bytes_compare char_signed remote local 32 = Some (-1)
  /\ unsigned_lex_compare remote local = 1
  /\ libp2p_secio_bytes_compare char_unsigned remote local 32 = Some 1.
Proof.
  vm_compute. repeat split.
Qed.

(** C8: on two arrays of [n] bytes, a result of +1 becomes -1 when the
    arguments are exchanged, and an array compared with itself gives 0;
    this holds whether plain [char] is signed or not. *)
Theorem bytes_compare_antisymmetric (k : char_kind) (a b : bytes) (n : nat) :
  List.length a = n -> List.length b = n ->
  (libp2p_secio_bytes_compare k a b (Z.of_nat n) = Some 1 ->
   libp2p_secio_bytes_compare k b a (Z.of_nat n) = Some (-1))
  /\ libp2p_secio_bytes_compare k a a (Z.of_nat n) = Some 0.
Proof.
  intros Ha Hb. unfold libp2p_secio_bytes_compare.
  rewrite Nat2Z.id, !bytes_compare_from_list. split.
  - apply bytes_compare_list_swap.
  - apply bytes_compare_list_refl. lia.
Qed.

Lemma bytes_compare_antisymmetric_witness :
  libp2p_secio_bytes_compare char_signed [x07; x09] [x07; x03] 2 = Some 1
  /\ libp2p_secio_bytes_compare char_signed [x07; x03] [x07; x09] 2 = Some (-1)
  /\ libp2p_secio_bytes_compare char_signed [x07; x09] [x07; x09] 2 = Some 0.
Proof.
  destruct (bytes_compare_antisymmetric char_signed [x07; x09] [x07; x03] 2
              eq_refl eq_refl) as [Hswap Hrefl].
  assert (libp2p_secio_bytes_compare char_signed [x07; x09] [x07; x03] 2
          = Some 1) as H by reflexivity.
  split; [exact H|]. split; [exact (Hswap H)|exact Hrefl].
Defined.

(** ** The nonce *)

Lemma generate_nonce_value dev results length r results' :
  libp2p_secio_generate_nonce dev results length = Some (r, results') -> r = 1.
Proof.
  unfold libp2p_secio_generate_nonce.
  destruct dev as [fd|]; [|discriminate].
  destruct (fread results (to_size_t length) fd); [|discriminate].
  congruence.
Qed.

Lemma generate_nonce_length dev results length r results' :
  libp2p_secio_generate_nonce dev results length = Some (r, results') ->
  List.length results' = List.length results.
Proof.
  unfold libp2p_secio_generate_nonce, fread.
  destruct dev as [fd|]; [|discriminate].
  destruct (2 ^ 63 <=? to_size_t length); [intros [= _ <-]; reflexivity|].
  set (n := Nat.min (Z.to_nat (to_size_t length)) (List.length fd)).
  destruct (n <=? List.length results)%nat eqn:E; [|discriminate].
  apply Nat.leb_le in E. intros [= _ <-].
  rewrite length_app, length_firstn, length_skipn. lia.
Qed.

(** ** Runs of the handshake *)

Lemma some_eq (A : Type) (x y : A) : Some x = Some y -> x = y.
Proof.
  congruence.
Qed.

(** Every way through [libp2p_secio_handshake] that ends in a run. *)
Ltac handshake_runs H :=
  unfold libp2p_secio_handshake, leave, libp2p_secio_read in H;
  cbv beta iota zeta in H;
  repeat match type of H with
         | context [match ?x with _ => _ end] => destruct x eqn:?
         end;
  try discriminate H;
  apply some_eq in H; subst;
  cbn [retVal left_at trace session set_nonce set_chosen nonce
       socket_descriptor ephemeral_public_key app In sent_messages
       verify_transcripts] in *.

Lemma handshake_not_exit_nonce w s k run :
  libp2p_secio_handshake w s k = Some run -> left_at run <> exit_nonce.
Proof.
  intros H. handshake_runs H; try discriminate.
  match goal with
  | E : libp2p_secio_generate_nonce _ _ _ = Some _ |- _ =>
      apply generate_nonce_value in E; subst
  end.
  discriminate.
Qed.

(** C10: [libp2p_secio_generate_nonce] returns 1 whenever [/dev/urandom]
    opens and the buffer has room for what is read, also when the stream
    delivers fewer bytes than asked for or none; it returns no other value;
    and no run of the handshake leaves through the test of its result. *)
Theorem generate_nonce_returns_one :
  (forall fd results length,
      (Nat.min (Z.to_nat (to_size_t length)) (List.length fd)
       <= List.length results)%nat ->
      exists results',
        libp2p_secio_generate_nonce (Some fd) results length
        = Some (1, results'))
  /\ (forall dev results length r results',
        libp2p_secio_generate_nonce dev results length = Some (r, results') ->
        r = 1)
  /\ (forall w s k run,
        libp2p_secio_handshake w s k = Some run -> left_at run <> exit_nonce).
Proof.
  split; [|split].
  - intros fd results length Hroom. unfold libp2p_secio_generate_nonce, fread.
    apply Nat.leb_le in Hroom. rewrite Hroom.
    destruct (2 ^ 63 <=? to_size_t length); eauto.
  - exact generate_nonce_value.
  - exact handshake_not_exit_nonce.
Qed.

(** No byte is read and the result is 1; a run of the handshake. *)
Lemma generate_nonce_returns_one_witness :
  (exists results',
      libp2p_secio_generate_nonce (Some []) (repeat x00 16) 16
      = Some (1, results'))
  /\ option_map left_at
       (libp2p_secio_handshake
          (scripted_world accept_line (bs "P-384,P-256") echoed_nonce 1)
          fresh_session test_key) <> Some exit_nonce.
Proof.
  destruct generate_nonce_returns_one as (Hret & _ & Hexit). split.
  - apply (Hret [] (repeat x00 16) 16). simpl. lia.
  - destruct (libp2p_secio_handshake
                (scripted_world accept_line (bs "P-384,P-256") echoed_nonce 1)
                fresh_session test_key) as [run|] eqn:E; [|discriminate].
    simpl. intros [= Hleft]. exact (Hexit _ _ _ _ E Hleft).
Defined.

(** ** The confirmation step *)

Lemma bytes_compare_equal k a b :
  List.length a = 16%nat ->
  libp2p_secio_bytes_compare k a b 16 = Some 0 -> a = firstn 16 b.
Proof.
  intros Ha H. unfold libp2p_secio_bytes_compare in H.
  rewrite bytes_compare_from_list in H.
  apply bytes_compare_list_zero in H.
  change (Z.to_nat 16) with 16%nat in H.
  rewrite <- H, <- Ha. symmetry. apply firstn_all.
Qed.

(** What is left of a membership in a trace whose events are known. *)
Ltac trace_member :=
  repeat match goal with
         | H : _ \/ _ |- _ => destruct H
         | H : False |- _ => contradiction H
         | H : @eq Event _ _ |- _ => first [discriminate H | injection H as H]
         end.

(** C5, as the code falls short of it: the buffer a run compares with the
    nonce is not a reply read over the secure channel.
    [libp2p_secio_write] and [libp2p_secio_read] do nothing, so the buffer
    is the Exchange message of the peer, as the receive before left it in
    [results].  The run returns 1 exactly when that message is the 16 bytes
    of the local nonce. *)
Theorem handshake_confirmation_buffer w s k run reply :
  libp2p_secio_handshake w s k = Some run ->
  In (ev_secio_read reply) (trace run) ->
  reply
  = buffer_of
      (snd (libp2p_net_multistream_receive w 1%nat (socket_descriptor s)))
  /\ libp2p_secio_write (session run) (firstn 16 (nonce (session run))) = 0
  /\ libp2p_secio_read (session run) reply = (0, reply)
  /\ (retVal run = 1
      <-> List.length reply = 16%nat
          /\ reply = firstn 16 (nonce (session run))).
Proof.
  intros H Hin. handshake_runs H; trace_member; subst.
  all: cbn [snd]; split; [reflexivity|].
  all: split; [reflexivity|]; split; [reflexivity|].
  all: repeat match goal with
         | E : negb (_ =? _) = _ |- _ =>
             first [apply negb_false_iff, Z.eqb_eq in E
                   |apply negb_true_iff, Z.eqb_neq in E]
         end; subst.
  - split; [discriminate|]. intros [Hlen _]. lia.
  - split; [discriminate|]. intros [Hlen Hsame]. exfalso.
    match goal with
    | C : libp2p_secio_bytes_compare ?k ?r ?n 16 = Some ?c, N : ?c <> 0 |- _ =>
        apply N;
        assert (libp2p_secio_bytes_compare k r n 16 = Some 0) as H0;
        [|congruence]
    end.
    unfold libp2p_secio_bytes_compare. rewrite bytes_compare_from_list.
    change (Z.to_nat 16) with 16%nat.
    match goal with
    | |- bytes_compare_list ?k ?r ?n 16 = _ =>
        assert (16 <= List.length n)%nat as Hn
    end.
    { apply (f_equal (@List.length byte)) in Hsame.
      rewrite length_firstn in Hsame. lia. }
    clear - Hlen Hsame Hn.
    match goal with
    | |- bytes_compare_list ?k ?r ?n 16 = _ =>
        revert Hlen Hsame Hn; generalize r n; generalize 16%nat
    end.
    intros m a b Ha Hsame Hb. subst a.
    revert b Ha Hb. induction m as [|m IH]; intros b Ha Hb; [reflexivity|].
    destruct b as [|x b]; [simpl in Hb; lia|]. simpl.
    rewrite Z.gtb_ltb, Z.ltb_irrefl. apply IH.
    + simpl in Ha. lia.
    + simpl in Hb. lia.
  - split; [intros _|reflexivity].
    match goal with
    | E : Z.of_nat (List.length ?r) = 16 |- _ =>
        assert (List.length r = 16%nat) as Hlen by lia
    end.
    split; [exact Hlen|]. eapply bytes_compare_equal; eassumption.
Qed.

(** The Exchange message of the scripted peer is the sixteen bytes of the
    nonce: the run returns 1, and no byte was sent or read through the
    secure channel. *)
Lemma handshake_confirmation_buffer_witness :
  match libp2p_secio_handshake
          (scripted_world accept_line (bs "P-384,P-256") echoed_nonce 1)
          fresh_session test_key with
  | Some run => retVal run = 1 /\ In (ev_receive (Some echoed_nonce)) (trace run)
  | None => False
  end.
Proof.
  destruct (libp2p_secio_handshake
              (scripted_world accept_line (bs "P-384,P-256") echoed_nonce 1)
              fresh_session test_key) as [run|] eqn:E.
  - assert (In (ev_secio_read echoed_nonce) (trace run)
            /\ In (ev_receive (Some echoed_nonce)) (trace run)
            /\ firstn 16 (nonce (session run)) = echoed_nonce) as (Hin & Hrecv & Hn).
    { vm_compute in E. apply some_eq in E. subst run. simpl. auto 12. }
    destruct (handshake_confirmation_buffer _ _ _ _ _ E Hin)
      as (_ & _ & _ & Hret).
    split; [|exact Hrecv]. apply Hret. rewrite Hn. split; reflexivity.
  - vm_compute in E. discriminate E.
Defined.

(** ** The signature of the peer *)

(** C3, as the code falls short of it: the transcript handed to
    [libp2p_secio_verify_signature] holds no byte of the local Propose,
    since [propose_out_bytes] is never assigned and is empty.  It is what is
    read through [propose_in_bytes] (which points into the first message of
    the peer, behind its newline, after that message was freed), then the
    empty [propose_out_bytes], then the ephemeral public key of the peer's
    Exchange.  The key is the one decoded from the peer's Propose and the
    signature the one of the Exchange; when the check gives 0 the run
    returns 0 from there. *)
Theorem handshake_verify_transcript w s k run key transcript sig ok :
  libp2p_secio_handshake w s k = Some run ->
  In (ev_verify key transcript sig ok) (trace run) ->
  exists results results_string offset propose_in exchange_in stale_in_bytes,
    snd (libp2p_net_multistream_receive w 0%nat (socket_descriptor s))
      = Some results
    /\ c_string results = Some results_string
    /\ strchr results_string newline = Some offset
    /\ libp2p_secio_propose_protobuf_decode w (skipn (S offset) results)
       = Some propose_in
    /\ libp2p_crypto_public_key_protobuf_decode w (public_key propose_in)
       = Some key
    /\ libp2p_secio_exchange_protobuf_decode w
         (buffer_of
            (snd (libp2p_net_multistream_receive w 1%nat (socket_descriptor s))))
       = Some exchange_in
    /\ read_after_free w 1%nat (skipn (S offset) results) = Some stale_in_bytes
    /\ transcript = stale_in_bytes ++ propose_out_bytes ++ epubkey exchange_in
    /\ propose_out_bytes = []
    /\ sig = signature exchange_in
    /\ ok = libp2p_secio_verify_signature w key transcript sig
    /\ (ok = 0 -> retVal run = 0 /\ left_at run = exit_signature).
Proof.
  intros H Hin. handshake_runs H; trace_member; subst.
  all: cbn [snd].
  all: do 6 eexists; do 11 (split; [first [eassumption|reflexivity]|]).
  all: intros Hok;
    first [ split; reflexivity
          | exfalso;
            match goal with
            | E : (_ =? 0) = false |- _ =>
                apply Z.eqb_neq in E; apply E; exact Hok
            end ].
Qed.

(** The signature of the scripted peer does not verify: the run stops
    there with 0.  The transcript is the Propose bytes of the peer and its
    ephemeral key, and nothing of the local Propose. *)
Lemma handshake_verify_transcript_witness :
  match libp2p_secio_handshake
          (scripted_world accept_line (bs "P-384,P-256") echoed_nonce 0)
          fresh_session test_key with
  | Some run =>
      retVal run = 0 /\ left_at run = exit_signature
      /\ verify_transcripts (trace run)
         = [bs "REMOTE-PROPOSE" ++ [NUL] ++ bs "PEER-EPHEMERAL"]
  | None => False
  end.
Proof.
  destruct (libp2p_secio_handshake
              (scripted_world accept_line (bs "P-384,P-256") echoed_nonce 0)
              fresh_session test_key) as [run|] eqn:E.
  - destruct (handshake_verify_transcript _ _ _ run
                {| key_type := KEYTYPE_RSA; key_data := bs "REMOTE-KEY" |}
                (bs "REMOTE-PROPOSE" ++ [NUL] ++ bs "PEER-EPHEMERAL")
                echoed_nonce 0 E)
      as (? & ? & ? & ? & ? & ? & H).
    + vm_compute in E. apply some_eq in E. subst run. simpl. auto 10.
    + destruct H as (_ & _ & _ & _ & _ & _ & _ & _ & _ & _ & _ & H).
      destruct (H eq_refl) as [Hret Hleft].
      split; [exact Hret|]. split; [exact Hleft|].
      vm_compute in E. apply some_eq in E. subst run. reflexivity.
  - vm_compute in E. discriminate E.
Defined.

(** ** The protocol line *)

(** C6 (as the code has it): a run goes on after the test of the first
    response only when the response, read as a C string (its bytes before
    the first NUL), contains "secio" somewhere; and when the response holds
    a NUL and its C string does not contain "secio", the handshake returns
    0, having sent nothing but the protocol line. *)
Theorem handshake_protocol_check w s k :
  (forall run,
      libp2p_secio_handshake w s k = Some run ->
      left_at run <> exit_send -> left_at run <> exit_protocol ->
      exists results results_string offset,
        snd (libp2p_net_multistream_receive w 0%nat (socket_descriptor s))
          = Some results
        /\ c_string results = Some results_string
        /\ strstr results_string (bs "secio") = Some offset)
  /\ (forall results results_string,
        snd (libp2p_net_multistream_receive w 0%nat (socket_descriptor s))
          = Some results ->
        c_string results = Some results_string ->
        strstr results_string (bs "secio") = None ->
        exists run,
          libp2p_secio_handshake w s k = Some run
          /\ retVal run = 0
          /\ (left_at run = exit_send \/ left_at run = exit_protocol)
          /\ sent_messages (trace run) = [protocol]).
Proof.
  split.
  - intros run H Hsend Hprotocol. handshake_runs H; try congruence.
    all: do 3 eexists; split; [reflexivity|]; split; eassumption.
  - intros results results_string Hrecv Hstring Hnone.
    unfold libp2p_secio_handshake, leave. cbv beta iota zeta.
    destruct (to_size_t (libp2p_net_multistream_send w (socket_descriptor s)
                           protocol) <=? 0).
    + eexists. split; [reflexivity|]. cbn. auto.
    + destruct (libp2p_net_multistream_receive w 0%nat (socket_descriptor s))
        as [r received]. cbn [snd] in Hrecv. subst received.
      destruct (to_size_t r <? 1).
      * eexists. split; [reflexivity|]. cbn. auto.
      * rewrite Hstring, Hnone. eexists. split; [reflexivity|]. cbn. auto.
Qed.

(** A response without "secio" stops the scripted run at the test. *)
Lemma handshake_protocol_check_witness :
  exists run,
    libp2p_secio_handshake
      (scripted_world (bs "/ipfs/id/1.0.0" ++ [newline; NUL]) (bs "P-384")
         echoed_nonce 1)
      fresh_session test_key = Some run
    /\ retVal run = 0.
Proof.
  destruct (proj2 (handshake_protocol_check
                     (scripted_world (bs "/ipfs/id/1.0.0" ++ [newline; NUL])
                        (bs "P-384") echoed_nonce 1)
                     fresh_session test_key)
              (bs "/ipfs/id/1.0.0" ++ [newline; NUL])
              (bs "/ipfs/id/1.0.0" ++ [newline]) eq_refl eq_refl eq_refl)
    as (run & Hrun & Hret & _).
  exists run. split; assumption.
Defined.

(** C6 as it is written fails: in this response "secio" comes only after
    the first newline, and the run goes on to the end and returns 1. *)
Lemma handshake_protocol_check_counterexample :
  strstr (before_newline (c_str late_secio_line)) (bs "secio") = None
  /\ option_map retVal
       (libp2p_secio_handshake
          (scripted_world late_secio_line (bs "P-384,P-256") echoed_nonce 1)
          fresh_session test_key)
     = Some 1.
Proof.
  split; vm_compute; reflexivity.
Qed.

(** ** What the handshake sends *)

(** The first buffer a run sends is the protocol line; the only other one is
    an encoded Exchange. *)
Lemma handshake_sent w s k run :
  libp2p_secio_handshake w s k = Some run ->
  sent_messages (trace run) = [protocol]
  \/ exists exchange_out,
       sent_messages (trace run)
       = [protocol; libp2p_secio_exchange_protobuf_encode w exchange_out].
Proof.
  intros H. handshake_runs H; eauto.
Qed.

(** C4, on the scripted peer: the run sends the 13 bytes of the protocol
    line and then its Exchange message, which the scripted encoder writes as
    the local ephemeral key and the signature bytes that the signature size
    covers (none, as no size was assigned).  The encoded local Propose is
    not sent. *)
Theorem handshake_sends_no_propose :
  protocol = bs "/secio/1.0.0" ++ [newline]
  /\ option_map (fun run => sent_messages (trace run))
       (libp2p_secio_handshake
          (scripted_world accept_line (bs "P-384,P-256") echoed_nonce 1)
          fresh_session test_key)
     = Some [protocol; bs "LOCAL-EPHEMERAL"]
  /\ ~ In (libp2p_secio_propose_protobuf_encode
             (scripted_world accept_line (bs "P-384,P-256") echoed_nonce 1)
             scripted_propose_out)
          [protocol; bs "LOCAL-EPHEMERAL"].
Proof.
  split; [reflexivity|]. split; [vm_compute; reflexivity|].
  vm_compute. intros [H|[H|[]]]; discriminate H.
Qed.

(** ** Lists without a common token *)

(** C2 as it is written fails.  With order 0 the call returns 1 on lists
    that share no token.  And the peer here offers a curve the local side
    does not have: the call returns 0 for either sign of the order, and the
    run of the handshake goes on to the end and returns 1. *)
Lemma select_best_failure_counterexample :
  libp2p_secio_select_best 0 (bs "AES-256") (bs "Blowfish") None
    = Some (1, Some (bs "AES-256"))
  /\ libp2p_secio_select_best 1 SupportedExchanges (bs "X25519") None
     = Some (0, None)
  /\ libp2p_secio_select_best (-1) SupportedExchanges (bs "X25519") None
     = Some (0, None)
  /\ option_map retVal
       (libp2p_secio_handshake
          (scripted_world accept_line (bs "X25519") echoed_nonce 1)
          fresh_session test_key)
     = Some 1.
Proof.
  vm_compute. repeat split.
Qed.


(** ** Tokens of a negotiation list *)

Lemma byte_eqb_eq (a b : byte) : Byte.eqb a b = true <-> a = b.
Proof.
  split; [apply Byte.byte_dec_bl|apply Byte.byte_dec_lb].
Qed.

Lemma is_delim_comma (c : byte) : is_delim comma c = true <-> c = x2c.
Proof.
  unfold is_delim, comma. simpl. rewrite orb_false_r. apply byte_eqb_eq.
Qed.

Lemma is_delim_comma_false (c : byte) : is_delim comma c = false <-> c <> x2c.
Proof.
  rewrite <- is_delim_comma. destruct (is_delim comma c); split; congruence.
Qed.

Lemma c_str_no_NUL (buf : bytes) : ~ In NUL (c_str buf).
Proof.
  induction buf as [|c buf IH]; simpl; [tauto|].
  destruct (Byte.eqb c NUL) eqn:E; simpl; [tauto|].
  intros [H|H]; [|exact (IH H)].
  apply Byte.eqb_false in E. congruence.
Qed.

Lemma c_str_id (s : bytes) : ~ In NUL s -> c_str s = s.
Proof.
  induction s as [|c s IH]; simpl; [reflexivity|]. intros H.
  destruct (Byte.eqb c NUL) eqn:E.
  - apply byte_eqb_eq in E. tauto.
  - f_equal. apply IH. tauto.
Qed.

Lemma c_str_cut (a b : bytes) : c_str (a ++ NUL :: b) = c_str a.
Proof.
  induction a as [|c a IH]; simpl; [reflexivity|].
  destruct (Byte.eqb c NUL); [reflexivity|]. f_equal. exact IH.
Qed.

Lemma skip_delims_incl delim s c :
  In c (skip_delims delim s) -> In c s.
Proof.
  induction s as [|d s IH]; simpl; [tauto|].
  destruct (is_delim delim d); simpl; tauto.
Qed.

Lemma skip_delims_head delim s d s1 :
  skip_delims delim s = d :: s1 -> is_delim delim d = false.
Proof.
  induction s as [|e s IH]; simpl; [discriminate|].
  destruct (is_delim delim e) eqn:E; [exact IH|]. congruence.
Qed.

Lemma span_token_parts delim s tok rest :
  span_token delim s = (tok, rest) ->
  (forall c, In c tok -> In c s /\ is_delim delim c = false)
  /\ (forall c, In c rest -> In c s).
Proof.
  revert tok rest. induction s as [|d s IH]; intros tok rest; simpl.
  - intros [= <- <-]. simpl. tauto.
  - destruct (is_delim delim d) eqn:E.
    + intros [= <- <-]. simpl. tauto.
    + destruct (span_token delim s) as [tok' rest'].
      destruct (IH tok' rest' eq_refl) as [Htok Hrest].
      intros [= <- <-]. split.
      * intros c [<-|Hc]; [tauto|]. destruct (Htok c Hc). tauto.
      * intros c Hc. right. exact (Hrest c Hc).
Qed.

Lemma strtok_parts s tok rest :
  strtok comma s = Some (tok, rest) ->
  tok <> [] /\ ~ In x2c tok
  /\ (forall c, In c tok -> In c s) /\ (forall c, In c rest -> In c s).
Proof.
  unfold strtok. destruct (skip_delims comma s) as [|d s1] eqn:E;
    [discriminate|].
  intros H.
  assert (span_token comma (d :: s1) = (tok, rest)) as Hspan by congruence.
  pose proof (skip_delims_head _ _ _ _ E) as Hd.
  destruct (span_token_parts _ _ _ _ Hspan) as [Htok Hrest].
  assert (forall c, In c (d :: s1) -> In c s) as Hincl.
  { intros c Hc. apply (skip_delims_incl comma). rewrite E. exact Hc. }
  repeat split.
  - cbn [span_token] in Hspan. rewrite Hd in Hspan.
    destruct (span_token comma s1). injection Hspan as <- _. discriminate.
  - intros Hc. destruct (Htok _ Hc) as [_ Hfalse].
    apply is_delim_comma_false in Hfalse. congruence.
  - intros c Hc. apply Hincl. apply Htok. exact Hc.
  - intros c Hc. apply Hincl. apply Hrest. exact Hc.
Qed.

Lemma split_list_loop_tokens fuel s token :
  ~ In NUL s -> In token (split_list_loop fuel s) -> well_formed_token token.
Proof.
  revert s. induction fuel as [|fuel IH]; intros s Hs; simpl; [tauto|].
  destruct (strtok comma s) as [[tok rest]|] eqn:E; [|simpl; tauto].
  destruct (strtok_parts _ _ _ E) as (Hne & Hcomma & Htok & Hrest).
  simpl. intros [<-|Hin].
  - repeat split; auto.
  - apply (IH rest); auto.
Qed.

(** X1: every token [libp2p_secio_split_list] returns is not empty and
    holds neither a comma nor a NUL, whatever the list string is. *)
Theorem split_list_tokens (list : bytes) (token : bytes) :
  In token (libp2p_secio_split_list list) -> well_formed_token token.
Proof.
  apply split_list_loop_tokens, c_str_no_NUL.
Qed.

Lemma split_list_tokens_witness :
  well_formed_token (bs "AES-128").
Proof.
  apply (split_list_tokens (bs ",AES-256,,AES-128,") (bs "AES-128")).
  vm_compute. auto.
Defined.

Lemma span_token_app (t r : bytes) :
  ~ In x2c t -> span_token comma (t ++ x2c :: r) = (t, r).
Proof.
  induction t as [|c t IH]; intros H; cbn [app span_token].
  - replace (is_delim comma x2c) with true by reflexivity. reflexivity.
  - replace (is_delim comma c) with false.
    + rewrite IH; [reflexivity|]. simpl in H. tauto.
    + symmetry. apply is_delim_comma_false. simpl in H. intuition congruence.
Qed.

Lemma span_token_end (t : bytes) :
  ~ In x2c t -> span_token comma t = (t, []).
Proof.
  induction t as [|c t IH]; intros H; cbn [span_token]; [reflexivity|].
  replace (is_delim comma c) with false.
  - rewrite IH; [reflexivity|]. simpl in H. tauto.
  - symmetry. apply is_delim_comma_false. simpl in H. intuition congruence.
Qed.

Lemma skip_delims_token (t s : bytes) :
  t <> [] -> ~ In x2c t -> skip_delims comma (t ++ s) = t ++ s.
Proof.
  destruct t as [|c t]; [congruence|]. intros _ H. cbn [app skip_delims].
  replace (is_delim comma c) with false; [reflexivity|].
  symmetry. apply is_delim_comma_false. simpl in H. intuition congruence.
Qed.

Lemma strtok_first (t r : bytes) :
  well_formed_token t -> strtok comma (t ++ x2c :: r) = Some (t, r).
Proof.
  intros (Hne & Hcomma & _). unfold strtok.
  rewrite skip_delims_token by assumption.
  destruct t as [|c t]; [congruence|].
  change ((c :: t) ++ x2c :: r) with (c :: (t ++ x2c :: r)).
  change (c :: (t ++ x2c :: r)) with ((c :: t) ++ x2c :: r).
  rewrite <- (span_token_app (c :: t) r Hcomma). reflexivity.
Qed.

Lemma strtok_last (t : bytes) :
  well_formed_token t -> strtok comma t = Some (t, []).
Proof.
  intros (Hne & Hcomma & _). unfold strtok.
  rewrite <- (app_nil_r t) at 1. rewrite skip_delims_token by assumption.
  rewrite app_nil_r. destruct t as [|c t]; [congruence|].
  rewrite <- (span_token_end (c :: t) Hcomma). reflexivity.
Qed.

Lemma join_list_cons (t t2 : bytes) (next : StringList) :
  join_list (t :: t2 :: next) = t ++ x2c :: join_list (t2 :: next).
Proof.
  reflexivity.
Qed.

Lemma split_list_loop_join (tokens : StringList) :
  Forall well_formed_token tokens ->
  forall fuel,
    (List.length (join_list tokens) < fuel)%nat ->
    split_list_loop fuel (join_list tokens) = tokens.
Proof.
  induction tokens as [|t next IH]; intros Hwf fuel Hfuel.
  - destruct fuel; reflexivity.
  - inversion Hwf as [|? ? Ht Hnext]; subst.
    destruct fuel as [|fuel]; [lia|]. destruct next as [|t2 next].
    + cbn [join_list split_list_loop]. rewrite (strtok_last t Ht).
      cbn [libp2p_secio_string_allocate]. destruct fuel; reflexivity.
    + rewrite join_list_cons in *. cbn [split_list_loop].
      rewrite (strtok_first t _ Ht). cbn [libp2p_secio_string_allocate].
      f_equal. apply IH; [exact Hnext|].
      rewrite length_app in Hfuel. cbn [List.length] in Hfuel. lia.
Qed.

Lemma join_list_no_NUL (tokens : StringList) :
  Forall well_formed_token tokens -> ~ In NUL (join_list tokens).
Proof.
  induction tokens as [|t next IH]; intros Hwf; [simpl; tauto|].
  inversion Hwf as [|? ? (_ & _ & Ht) Hnext]; subst.
  destruct next as [|t2 next]; [exact Ht|].
  rewrite join_list_cons, in_app_iff. intros [H|[H|H]].
  - exact (Ht H).
  - discriminate H.
  - exact (IH Hnext H).
Qed.

Lemma split_list_join (tokens : StringList) :
  Forall well_formed_token tokens ->
  libp2p_secio_split_list (join_list tokens) = tokens.
Proof.
  intros Hwf. unfold libp2p_secio_split_list.
  rewrite (c_str_id _ (join_list_no_NUL _ Hwf)).
  apply split_list_loop_join; [exact Hwf|lia].
Qed.

(** X2: writing tokens as a comma separated list and splitting the list
    gives the tokens back, in order, when no token is empty or holds a comma
    or a NUL. *)
Theorem split_list_round_trip (tokens : StringList) :
  Forall well_formed_token tokens ->
  libp2p_secio_split_list (join_list tokens) = tokens.
Proof.
  exact (split_list_join tokens).
Qed.

Lemma split_list_round_trip_witness :
  libp2p_secio_split_list (join_list [bs "P-256"; bs "P-384"; bs "P-521"])
  = [bs "P-256"; bs "P-384"; bs "P-521"].
Proof.
  apply (split_list_round_trip [bs "P-256"; bs "P-384"; bs "P-521"]).
  repeat constructor; try discriminate;
    vm_compute; intuition discriminate.
Defined.

(** X3: what follows the first NUL of a list string is not read, and
    splitting is idempotent: the list written from the tokens of a string
    splits into the same tokens, so empty segments and the tail behind a
    NUL are all that is lost. *)
Theorem split_list_normal_form (list tail : bytes) :
  libp2p_secio_split_list (list ++ NUL :: tail) = libp2p_secio_split_list list
  /\ libp2p_secio_split_list (join_list (libp2p_secio_split_list list))
     = libp2p_secio_split_list list.
Proof.
  split.
  - unfold libp2p_secio_split_list. rewrite c_str_cut. reflexivity.
  - apply split_list_join. apply Forall_forall. intros token.
    apply split_list_loop_tokens, c_str_no_NUL.
Qed.

(** ** The selector on an order other than 0 *)

Lemma scan_lead_shared (lead follower_head : StringList) :
  fst (scan_lead lead follower_head) = true
  <-> exists t, In t lead /\ In t follower_head.
Proof.
  split.
  - induction lead as [|l next IH]; simpl; [discriminate|].
    destruct (scan_follower l follower_head) eqn:E.
    + intros _. exists l. apply scan_follower_In in E. simpl. tauto.
    + intros H. destruct (IH H) as (t & Hl & Hf). exists t. simpl. tauto.
  - intros (t & Hl & Hf).
    destruct (scan_lead_found _ _ _ Hl Hf) as (? & ? & ? & -> & _).
    reflexivity.
Qed.

Lemma scan_lead_swap (a b : StringList) :
  fst (scan_lead a b) = fst (scan_lead b a).
Proof.
  destruct (fst (scan_lead a b)) eqn:Ea, (fst (scan_lead b a)) eqn:Eb;
    try reflexivity.
  - apply scan_lead_shared in Ea. destruct Ea as (t & Ha & Hb).
    assert (fst (scan_lead b a) = true) as H
      by (apply scan_lead_shared; eauto).
    congruence.
  - apply scan_lead_shared in Eb. destruct Eb as (t & Hb & Ha).
    assert (fst (scan_lead a b) = true) as H
      by (apply scan_lead_shared; eauto).
    congruence.
Qed.

Lemma select_best_nonzero order local_list remote_list results :
  order <> 0 ->
  libp2p_secio_select_best order local_list remote_list results
  = Some ((if fst (scan_lead (libp2p_secio_split_list local_list)
                     (libp2p_secio_split_list remote_list))
           then 1 else 0), results).
Proof.
  intros Ho. rewrite (select_best_search _ _ _ _ Ho).
  unfold lead_of, follower_of. destruct (order >? 0).
  - destruct (fst (scan_lead _ _)); reflexivity.
  - rewrite scan_lead_swap. destruct (fst (scan_lead _ _)); reflexivity.
Qed.

(** X4: with an order other than 0 the call returns 1 exactly when the two
    lists share a token and 0 otherwise, and in both cases [*results] is
    what it was before the call. *)
Theorem select_best_nonzero_order order local_list remote_list results :
  order <> 0 ->
  ((exists t, In t (libp2p_secio_split_list local_list)
              /\ In t (libp2p_secio_split_list remote_list))
   /\ libp2p_secio_select_best order local_list remote_list results
      = Some (1, results))
  \/ ((forall t, In t (libp2p_secio_split_list local_list) ->
                 ~ In t (libp2p_secio_split_list remote_list))
      /\ libp2p_secio_select_best order local_list remote_list results
         = Some (0, results)).
Proof.
  intros Ho. rewrite (select_best_nonzero _ _ _ _ Ho).
  destruct (fst (scan_lead _ _)) eqn:E.
  - left. split; [|reflexivity]. apply scan_lead_shared. exact E.
  - right. split; [|reflexivity]. intros t Hl Hr.
    assert (fst (scan_lead (libp2p_secio_split_list local_list)
                   (libp2p_secio_split_list remote_list)) = true) as H
      by (apply scan_lead_shared; eauto).
    congruence.
Qed.

Lemma select_best_nonzero_order_witness :
  libp2p_secio_select_best (-7) SupportedCiphers (bs "Blowfish,RC4")
    (Some (bs "stale"))
  = Some (1, Some (bs "stale")).
Proof.
  destruct (select_best_nonzero_order (-7) SupportedCiphers
              (bs "Blowfish,RC4") (Some (bs "stale")))
    as [[_ H]|[Hnone _]].
  - lia.
  - exact H.
  - exfalso. apply (Hnone (bs "Blowfish")); vm_compute; auto.
Defined.

(** X5: two calls with orders other than 0 give the same result whatever
    the signs of the orders are, and also when the local and the remote list
    change places: which side leads has no effect on what the call returns. *)
Theorem select_best_role_symmetry order order' local_list remote_list results :
  order <> 0 -> order' <> 0 ->
  libp2p_secio_select_best order local_list remote_list results
  = libp2p_secio_select_best order' local_list remote_list results
  /\ libp2p_secio_select_best order local_list remote_list results
     = libp2p_secio_select_best order' remote_list local_list results.
Proof.
  intros Ho Ho'. rewrite !select_best_nonzero by assumption.
  split; [reflexivity|]. rewrite scan_lead_swap. reflexivity.
Qed.

Lemma select_best_role_symmetry_witness :
  libp2p_secio_select_best 1 (bs "P-256,P-384") (bs "P-384,P-256") None
  = libp2p_secio_select_best (-1) (bs "P-384,P-256") (bs "P-256,P-384") None.
Proof.
  apply (select_best_role_symmetry 1 (-1) (bs "P-256,P-384")
           (bs "P-384,P-256") None); lia.
Defined.

(** ** The comparison as an order *)

Section CompareOrder.

Variable k : char_kind.

Lemma bytes_compare_list_equal a b n :
  (n <= List.length a)%nat -> (n <= List.length b)%nat ->
  firstn n a = firstn n b -> bytes_compare_list k a b n = Some 0.
Proof.
  revert a b. induction n as [|n IH]; intros a b Ha Hb; simpl; [reflexivity|].
  destruct b as [|bi b']; simpl in Hb; [lia|].
  destruct a as [|ai a']; simpl in Ha; [lia|].
  intros [= -> Hrest]. rewrite Z.gtb_ltb, Z.ltb_irrefl.
  apply IH; [lia|lia|exact Hrest].
Qed.

Lemma bytes_compare_list_opp a b n c :
  bytes_compare_list k a b n = Some c ->
  bytes_compare_list k b a n = Some (- c) /\ (c = -1 \/ c = 0 \/ c = 1).
Proof.
  revert a b. induction n as [|n IH]; intros a b; simpl.
  - intros [= <-]. auto.
  - destruct b as [|bi b'], a as [|ai a']; try discriminate.
    rewrite !Z.gtb_ltb.
    destruct (char_value k ai <? char_value k bi) eqn:E1.
    + intros [= <-]. apply Z.ltb_lt in E1.
      destruct (char_value k bi <? char_value k ai) eqn:E2;
        [apply Z.ltb_lt in E2; lia|auto].
    + destruct (char_value k bi <? char_value k ai) eqn:E2.
      * intros [= <-]. auto.
      * apply IH.
Qed.

Lemma bytes_compare_list_trans a b c n x y :
  bytes_compare_list k a b n = Some x ->
  bytes_compare_list k b c n = Some y ->
  0 <= x -> 0 <= y ->
  bytes_compare_list k a c n = Some (Z.max x y).
Proof.
  revert a b c. induction n as [|n IH]; intros a b c; simpl.
  - intros [= <-] [= <-] _ _. reflexivity.
  - destruct a as [|ai a']; [destruct b; discriminate|].
    destruct b as [|bi b']; [discriminate|].
    destruct c as [|ci c']; [discriminate|].
    rewrite !Z.gtb_ltb.
    destruct (char_value k ai <? char_value k bi) eqn:Eab;
      [intros [= <-]; lia|].
    destruct (char_value k bi <? char_value k ci) eqn:Ebc;
      [intros _ [= <-]; lia|].
    apply Z.ltb_ge in Eab, Ebc.
    destruct (char_value k bi <? char_value k ai) eqn:Eba.
    + apply Z.ltb_lt in Eba. intros [= <-].
      replace (char_value k ai <? char_value k ci) with false
        by (symmetry; apply Z.ltb_ge; lia).
      replace (char_value k ci <? char_value k ai) with true
        by (symmetry; apply Z.ltb_lt; lia).
      destruct (char_value k ci <? char_value k bi).
      * intros [= <-] _ _. reflexivity.
      * intros Hy _ Hpos.
        destruct (bytes_compare_list_opp _ _ _ _ Hy) as [_ Hrange].
        f_equal. lia.
    + apply Z.ltb_ge in Eba.
      assert (char_value k ai = char_value k bi) as Heq by lia.
      rewrite Heq. intros Hx.
      destruct (char_value k ci <? char_value k bi) eqn:Ecb.
      * apply Z.ltb_lt in Ecb. intros [= <-] Hpos _.
        replace (char_value k bi <? char_value k ci) with false
          by (symmetry; apply Z.ltb_ge; lia).
        destruct (bytes_compare_list_opp _ _ _ _ Hx) as [_ Hrange].
        f_equal. lia.
      * replace (char_value k bi <? char_value k ci) with false
          by (symmetry; apply Z.ltb_ge; lia).
        intros Hy. exact (IH _ _ _ Hx Hy).
Qed.

End CompareOrder.

(** X6: on arrays that hold the [n] bytes compared, the result is 0 exactly
    when the first [n] bytes of the two arrays are the same, for a signed as
    for an unsigned [char]. *)
Theorem bytes_compare_zero_iff k a b (n : nat) :
  (n <= List.length a)%nat -> (n <= List.length b)%nat ->
  (libp2p_secio_bytes_compare k a b (Z.of_nat n) = Some 0
   <-> firstn n a = firstn n b).
Proof.
  intros Ha Hb. unfold libp2p_secio_bytes_compare.
  rewrite Nat2Z.id, bytes_compare_from_list. split.
  - apply bytes_compare_list_zero.
  - apply bytes_compare_list_equal; assumption.
Qed.

Lemma bytes_compare_zero_iff_witness :
  libp2p_secio_bytes_compare char_signed (bs "nonce-A") (bs "nonce-B") 6
  = Some 0.
Proof.
  apply (bytes_compare_zero_iff char_signed (bs "nonce-A") (bs "nonce-B") 6).
  - simpl. lia.
  - simpl. lia.
  - reflexivity.
Defined.

(** X7: whenever the comparison of [a] with [b] has a result, it is -1, 0
    or 1, and the comparison of [b] with [a] has the opposite result. *)
Theorem bytes_compare_opposite k a b length c :
  libp2p_secio_bytes_compare k a b length = Some c ->
  libp2p_secio_bytes_compare k b a length = Some (- c)
  /\ (c = -1 \/ c = 0 \/ c = 1).
Proof.
  unfold libp2p_secio_bytes_compare. rewrite !bytes_compare_from_list.
  apply bytes_compare_list_opp.
Qed.

Lemma bytes_compare_opposite_witness :
  libp2p_secio_bytes_compare char_signed [x80; x00] [x01; x00] 2 = Some (-1)
  /\ libp2p_secio_bytes_compare char_signed [x01; x00] [x80; x00] 2 = Some 1.
Proof.
  assert (libp2p_secio_bytes_compare char_signed [x80; x00] [x01; x00] 2
          = Some (-1)) as H by reflexivity.
  split; [exact H|].
  exact (proj1 (bytes_compare_opposite _ _ _ _ _ H)).
Defined.

(** X8: the comparison is transitive.  When [a] against [b] and [b] against
    [c] both give 0 or 1, [a] against [c] gives the larger of the two
    results: 1 as soon as one of them is 1, and 0 when both are 0. *)
Theorem bytes_compare_transitive k a b c length x y :
  libp2p_secio_bytes_compare k a b length = Some x ->
  libp2p_secio_bytes_compare k b c length = Some y ->
  0 <= x -> 0 <= y ->
  libp2p_secio_bytes_compare k a c length = Some (Z.max x y).
Proof.
  unfold libp2p_secio_bytes_compare. rewrite !bytes_compare_from_list.
  apply bytes_compare_list_trans.
Qed.

Lemma bytes_compare_transitive_witness :
  libp2p_secio_bytes_compare char_unsigned [xff; x02] [x7f; x02] 2 = Some 1.
Proof.
  apply (bytes_compare_transitive char_unsigned [xff; x02] [x80; x01]
           [x7f; x02] 2 1 1); try reflexivity; lia.
Defined.

Lemma char_value_ascii k c : uchar_value c < 128 -> char_value k c = uchar_value c.
Proof.
  intros H. destruct k; simpl; [|reflexivity].
  destruct (128 <=? uchar_value c) eqn:E; [|reflexivity].
  apply Z.leb_le in E. lia.
Qed.

Lemma bytes_compare_list_ascii k a b n :
  k = char_unsigned \/ (forall c, In c (a ++ b) -> uchar_value c < 128) ->
  List.length a = n -> List.length b = n ->
  bytes_compare_list k a b n = Some (unsigned_lex_compare a b).
Proof.
  intros Hk. assert (forall c, In c (a ++ b) -> char_value k c = uchar_value c)
    as Hval.
  { destruct Hk as [->|Hascii]; [reflexivity|].
    intros c Hc. apply char_value_ascii. auto. }
  clear Hk. revert a b Hval.
  induction n as [|n IH]; intros a b Hval Ha Hb.
  - destruct a, b; try discriminate. reflexivity.
  - destruct a as [|ai a'], b as [|bi b']; try discriminate. simpl.
    rewrite (Hval ai), (Hval bi) by (rewrite in_app_iff; simpl; auto).
    rewrite !Z.gtb_ltb.
    destruct (uchar_value ai <? uchar_value bi); [reflexivity|].
    destruct (uchar_value bi <? uchar_value ai); [reflexivity|].
    apply IH; simpl in *; try lia.
    intros c Hc. apply Hval. rewrite in_app_iff in *. simpl. tauto.
Qed.

(** X9: where plain [char] is unsigned, and on every platform when no byte
    of the two arrays is above 0x7f, the function is the unsigned
    lexicographic comparison of the two arrays. *)
Theorem bytes_compare_unsigned_or_ascii k a b (n : nat) :
  k = char_unsigned \/ (forall c, In c (a ++ b) -> uchar_value c < 128) ->
  List.length a = n -> List.length b = n ->
  libp2p_secio_bytes_compare k a b (Z.of_nat n)
  = Some (unsigned_lex_compare a b).
Proof.
  intros Hk Ha Hb. unfold libp2p_secio_bytes_compare.
  rewrite Nat2Z.id, bytes_compare_from_list.
  apply bytes_compare_list_ascii; assumption.
Qed.

Lemma bytes_compare_unsigned_or_ascii_witness :
  libp2p_secio_bytes_compare char_signed (bs "P-256") (bs "P-384") 5
  = Some (unsigned_lex_compare (bs "P-256") (bs "P-384")).
Proof.
  apply (bytes_compare_unsigned_or_ascii char_signed (bs "P-256") (bs "P-384")
           5); try reflexivity.
  right. intros c Hc. vm_compute in Hc.
  repeat (destruct Hc as [<-|Hc]; [vm_compute; reflexivity|]).
  contradiction.
Defined.


(** ** What the nonce buffer holds *)

(** X10: for a length that is not negative, the bytes the stream delivers,
    at most as many as asked for, are written over the start of the buffer,
    and what follows them is left as it was; the length of the buffer does
    not change.  With a negative length, or a stream that delivers nothing,
    the buffer is returned as it was.  The result is 1 in every case. *)
Theorem generate_nonce_buffer fd results length r results' :
  libp2p_secio_generate_nonce (Some fd) results length = Some (r, results') ->
  r = 1
  /\ List.length results' = List.length results
  /\ (0 <= length < 2 ^ 31 ->
      let n := Nat.min (Z.to_nat length) (List.length fd) in
      firstn n results' = firstn n fd /\ skipn n results' = skipn n results)
  /\ (- 2 ^ 31 <= length < 0 -> results' = results)
  /\ (fd = [] -> results' = results).
Proof.
  intros H. pose proof (generate_nonce_length _ _ _ _ _ H) as Hlen.
  pose proof (generate_nonce_value _ _ _ _ _ H) as Hr.
  split; [exact Hr|]. split; [exact Hlen|].
  unfold libp2p_secio_generate_nonce, fread in H.
  destruct (2 ^ 63 <=? to_size_t length) eqn:Ebig.
  - injection H as _ <-. apply Z.leb_le in Ebig. split; [|auto].
    intros Hpos. unfold to_size_t in Ebig.
    rewrite Z.mod_small in Ebig by lia. lia.
  - apply Z.leb_gt in Ebig.
    set (m := Nat.min (Z.to_nat (to_size_t length)) (List.length fd)) in H.
    destruct (m <=? List.length results)%nat eqn:E; [|discriminate].
    injection H as _ <-.
    assert (List.length (firstn m fd) = m) as Hm
      by (rewrite length_firstn; unfold m; lia).
    split; [|split].
    + intros Hpos n.
      assert (n = m) as ->.
      { unfold n, m, to_size_t. rewrite Z.mod_small by lia. reflexivity. }
      split.
      * rewrite <- Hm at 1.
        rewrite firstn_app, firstn_all, Nat.sub_diag, firstn_O, app_nil_r.
        reflexivity.
      * rewrite <- Hm at 1. rewrite skipn_app, skipn_all, Nat.sub_diag.
        reflexivity.
    + intros Hneg. exfalso. unfold to_size_t in Ebig.
      assert (length mod 2 ^ 64 = length + 2 ^ 64) as Hwrap.
      { symmetry. apply Z.mod_unique with (q := -1); [left; lia|lia]. }
      lia.
    + intros ->. unfold m. simpl. rewrite Nat.min_0_r. reflexivity.
Qed.

(** Three bytes are read: the other thirteen stay. *)
Lemma generate_nonce_buffer_witness :
  match libp2p_secio_generate_nonce (Some (bs "abc"))
          (bs "0123456789ABCDEF") 16 with
  | Some (_, results') =>
      List.length results' = 16%nat
      /\ firstn 3 results' = bs "abc"
      /\ skipn 3 results' = bs "3456789ABCDEF"
  | None => False
  end.
Proof.
  destruct (libp2p_secio_generate_nonce (Some (bs "abc"))
              (bs "0123456789ABCDEF") 16) as [[r results']|] eqn:E.
  - destruct (generate_nonce_buffer _ _ _ _ _ E) as (_ & H1 & H2 & _).
    split; [exact H1|]. apply H2. lia.
  - vm_compute in E. discriminate E.
Defined.


(** ** Runs of the handshake: results, session and messages *)

Lemma select_best_stored order local_list remote_list results r stored :
  libp2p_secio_select_best order local_list remote_list results
  = Some (r, stored) ->
  (order = 0 /\ stored = head (libp2p_secio_split_list local_list))
  \/ (order <> 0 /\ stored = results).
Proof.
  destruct (Z.eq_dec order 0) as [->|Ho].
  - unfold libp2p_secio_select_best. simpl.
    destruct (libp2p_secio_split_list local_list); [discriminate|].
    intros [= _ <-]. left. auto.
  - rewrite (select_best_nonzero _ _ _ _ Ho). intros [= _ <-]. auto.
Qed.

(** X12: a run never changes the socket descriptor or the ephemeral public
    key of the session, and the nonce keeps its length.  The three chosen
    algorithms are together either what the session held at the call or the
    first local entries "P-256", "AES-256" and "SHA256"; nothing from the
    lists of the peer is ever stored.  A run that stops before the nonce is
    generated leaves the whole session as it was. *)
Theorem handshake_session w s k run :
  libp2p_secio_handshake w s k = Some run ->
  socket_descriptor (session run) = socket_descriptor s
  /\ ephemeral_public_key (session run) = ephemeral_public_key s
  /\ List.length (nonce (session run)) = List.length (nonce s)
  /\ ((chosen_curve (session run) = chosen_curve s
       /\ chosen_cipher (session run) = chosen_cipher s
       /\ chosen_hash (session run) = chosen_hash s)
      \/ (chosen_curve (session run) = Some (bs "P-256")
          /\ chosen_cipher (session run) = Some (bs "AES-256")
          /\ chosen_hash (session run) = Some (bs "SHA256")))
  /\ (left_at run = exit_send \/ left_at run = exit_protocol
      \/ left_at run = exit_newline \/ left_at run = exit_propose_decode
      \/ left_at run = exit_public_key_decode ->
      session run = s).
Proof.
  intros H. handshake_runs H.
  all: cbn [exchanges ciphers hashes chosen_curve chosen_cipher chosen_hash]
         in *.
  all: repeat match goal with
         | E : libp2p_secio_generate_nonce _ _ _ = Some _ |- _ =>
             apply generate_nonce_length in E
         | E : libp2p_secio_select_best _ _ _ _ = Some _ |- _ =>
             apply select_best_stored in E
         end.
  all: repeat split; auto.
  all: try (intros Hleft; repeat destruct Hleft as [Hleft|Hleft];
            discriminate Hleft).
  all: repeat match goal with
         | E : _ \/ _ |- _ => destruct E as [[? ?]|[? ?]]
         end; subst; try contradiction; auto.
Qed.

Lemma handshake_session_witness :
  match libp2p_secio_handshake
          (scripted_world accept_line (bs "X25519") echoed_nonce 1)
          fresh_session test_key with
  | Some run =>
      ephemeral_public_key (session run) = bs "LOCAL-EPHEMERAL"
      /\ List.length (nonce (session run)) = 16%nat
  | None => False
  end.
Proof.
  destruct (libp2p_secio_handshake
              (scripted_world accept_line (bs "X25519") echoed_nonce 1)
              fresh_session test_key) as [run|] eqn:E.
  - destruct (handshake_session _ _ _ _ E) as (_ & Hkey & Hnonce & _).
    split; [exact Hkey|exact Hnonce].
  - vm_compute in E. discriminate E.
Defined.

Lemma KeyType_eqb_eq (a b : KeyType) : KeyType_eqb a b = true <-> a = b.
Proof.
  destruct a, b; simpl; split; congruence.
Qed.

(** X13: a run returns 1 only when the key that
    [libp2p_crypto_public_key_protobuf_decode] gives for the public key of
    the peer's Propose is an RSA key, and [libp2p_crypto_rsa_verify]
    accepted the signature of the peer's Exchange under that key; when that
    key has another type the handshake does not return 1. *)
Theorem handshake_success_rsa w s k run :
  libp2p_secio_handshake w s k = Some run ->
  retVal run = 1 ->
  exists results results_string offset propose_in key transcript sig,
    snd (libp2p_net_multistream_receive w 0%nat (socket_descriptor s))
      = Some results
    /\ c_string results = Some results_string
    /\ strchr results_string newline = Some offset
    /\ libp2p_secio_propose_protobuf_decode w (skipn (S offset) results)
       = Some propose_in
    /\ libp2p_crypto_public_key_protobuf_decode w (public_key propose_in)
       = Some key
    /\ key_type key = KEYTYPE_RSA
    /\ In (ev_verify key transcript sig
             (libp2p_crypto_rsa_verify w (key_data key) transcript sig))
          (trace run)
    /\ libp2p_crypto_rsa_verify w (key_data key) transcript sig <> 0.
Proof.
  intros H Hret. handshake_runs H; try discriminate Hret.
  match goal with
  | E : (libp2p_secio_verify_signature _ ?key ?t ?sig =? 0) = false |- _ =>
      apply Z.eqb_neq in E; unfold libp2p_secio_verify_signature in *;
      destruct (KeyType_eqb (key_type key) KEYTYPE_RSA) eqn:Ekey;
      [apply KeyType_eqb_eq in Ekey|congruence];
      cbn [snd]; do 4 eexists; exists key, t, sig
  end.
  do 5 (split; [first [eassumption|reflexivity]|]).
  split; [assumption|]. split; [auto 10|assumption].
Qed.

Lemma handshake_success_rsa_witness :
  match libp2p_secio_handshake
          (scripted_world accept_line (bs "P-384,P-256") echoed_nonce 1)
          fresh_session test_key with
  | Some run =>
      exists key transcript sig,
        In (ev_verify key transcript sig 1) (trace run)
        /\ key_type key = KEYTYPE_RSA
  | None => False
  end.
Proof.
  destruct (libp2p_secio_handshake
              (scripted_world accept_line (bs "P-384,P-256") echoed_nonce 1)
              fresh_session test_key) as [run|] eqn:E.
  - destruct (handshake_success_rsa _ _ _ _ E)
      as (? & ? & ? & ? & key & transcript & sig & _ & _ & _ & _ & _
          & Hkey & Hin & _).
    + vm_compute in E. apply some_eq in E. subst run. reflexivity.
    + exists key, transcript, sig. split; [exact Hin|exact Hkey].
  - vm_compute in E. discriminate E.
Defined.

Lemma sign_keeps_size w private_key in_ sig size r sig' size' :
  libp2p_secio_sign w private_key in_ sig size = (r, sig', size') ->
  size' = size.
Proof.
  unfold libp2p_secio_sign.
  destruct (KeyType_eqb (key_type private_key) KEYTYPE_RSA).
  - destruct (libp2p_crypto_rsa_sign w _ _). congruence.
  - congruence.
Qed.

(** X14: the first buffer a run sends is the protocol line.  The only other
    buffer it sends is the encoded Exchange: its key is the ephemeral public
    key the session held at the call, and its signature size is the one
    [libp2p_secio_exchange_new] set, whatever was signed, since
    [libp2p_secio_sign] does not assign the size. *)
Theorem handshake_messages w s k run :
  libp2p_secio_handshake w s k = Some run ->
  sent_messages (trace run) = [protocol]
  \/ exists signature_,
       sent_messages (trace run)
       = [protocol;
          libp2p_secio_exchange_protobuf_encode w
            {| epubkey := ephemeral_public_key s;
               signature := signature_;
               signature_size :=
                 signature_size (libp2p_secio_exchange_new w) |}].
Proof.
  intros H. handshake_runs H; auto.
  all: right.
  all: match goal with
       | E : libp2p_secio_sign _ _ _ _ _ = _ |- _ =>
           apply sign_keeps_size in E; subst
       end.
  all: eexists; reflexivity.
Qed.

Lemma handshake_messages_witness :
  match libp2p_secio_handshake
          (scripted_world accept_line (bs "P-384,P-256") echoed_nonce 0)
          fresh_session test_key with
  | Some run =>
      sent_messages (trace run) = [protocol]
      \/ sent_messages (trace run) = [protocol; bs "LOCAL-EPHEMERAL"]
  | None => False
  end.
Proof.
  destruct (libp2p_secio_handshake
              (scripted_world accept_line (bs "P-384,P-256") echoed_nonce 0)
              fresh_session test_key) as [run|] eqn:E.
  - destruct (handshake_messages _ _ _ _ E) as [H|[signature_ H]].
    + left. exact H.
    + right. rewrite H. reflexivity.
  - vm_compute in E. discriminate E.
Defined.

(** ** The identify protocol line *)

Lemma identify_protocol_no_NUL : ~ In NUL identify_protocol.
Proof.
  vm_compute. intuition discriminate.
Qed.

Lemma strncmp_match (s1 s2 : bytes) :
  ~ In NUL s1 ->
  (strncmp s1 s2 (List.length s1) = Some 0 <-> exists rest, s2 = s1 ++ rest).
Proof.
  revert s2. induction s1 as [|c s1 IH]; intros s2 Hnul.
  - simpl. split; [intros _; exists s2; reflexivity|reflexivity].
  - cbn [List.length strncmp]. destruct s2 as [|c2 s2].
    + split; [discriminate|]. intros [rest H]. discriminate H.
    + cbn [hd tl].
      assert (c <> NUL) as Hc by (intros ->; apply Hnul; left; reflexivity).
      assert (~ In NUL s1) as Hrest by (intros H; apply Hnul; right; exact H).
      destruct (uchar_value c <? uchar_value c2) eqn:E1.
      { apply Z.ltb_lt in E1. split; [discriminate|].
        intros [rest [= -> _]]. lia. }
      destruct (uchar_value c2 <? uchar_value c) eqn:E2.
      { apply Z.ltb_lt in E2. split; [discriminate|].
        intros [rest [= -> _]]. lia. }
      apply Z.ltb_ge in E1, E2.
      assert (c = c2) as <- by (apply uchar_value_inj; lia).
      destruct (Byte.eqb c NUL) eqn:E3; [apply byte_eqb_eq in E3; tauto|].
      rewrite (IH s2 Hrest). split.
      * intros [rest ->]. exists rest. reflexivity.
      * intros [rest [= ->]]. exists rest. reflexivity.
Qed.

Lemma strncmp_defined (s1 s2 : bytes) (n : nat) :
  (n <= List.length s2)%nat -> exists c, strncmp s1 s2 n = Some c.
Proof.
  revert s1 s2. induction n as [|n IH]; intros s1 s2 Hlen; simpl; [eauto|].
  destruct s2 as [|c2 s2]; simpl in Hlen; [lia|].
  destruct (uchar_value (hd NUL s1) <? uchar_value c2); [eauto|].
  destruct (uchar_value c2 <? uchar_value (hd NUL s1)); [eauto|].
  destruct (Byte.eqb (hd NUL s1) NUL); [eauto|].
  apply IH. lia.
Qed.

Lemma strncmp_past_end (s2 rest : bytes) (n : nat) :
  ~ In NUL s2 -> (List.length s2 < n)%nat ->
  strncmp (s2 ++ rest) s2 n = None.
Proof.
  revert n. induction s2 as [|c s2 IH]; intros n Hnul Hlen.
  - destruct n; [simpl in Hlen; lia|reflexivity].
  - destruct n as [|n]; [simpl in Hlen; lia|]. cbn [app strncmp hd tl].
    rewrite Z.ltb_irrefl.
    destruct (Byte.eqb c NUL) eqn:E.
    + apply byte_eqb_eq in E. exfalso. apply Hnul. left. auto.
    + apply IH; [|simpl in Hlen; lia]. intros H. apply Hnul. right. exact H.
Qed.

Section CanHandle.

Variable varint_decode : bytes -> Z.

(** X16: on a message that starts with '/', no prefix is skipped and no byte
    is read past the message: the result is 1 when the message starts with
    the 15 bytes of the protocol line and 0 when it does not, also for a
    message shorter than the line, whatever the varint decoder is. *)
Theorem can_handle_unprefixed (tail : bytes) :
  ((exists rest, x2f :: tail = identify_protocol ++ rest)
   /\ libp2p_identify_can_handle varint_decode (x2f :: tail) = Some 1)
  \/ ((forall rest, x2f :: tail <> identify_protocol ++ rest)
      /\ libp2p_identify_can_handle varint_decode (x2f :: tail) = Some 0).
Proof.
  unfold libp2p_identify_can_handle. cbn [nth_error].
  change (Byte.eqb x2f (nth 0 identify_protocol NUL)) with true.
  cbn [negb]. cbv beta iota zeta.
  change (to_size_t (Z.of_nat (List.length identify_protocol) - 0)) with 15.
  change (Z.to_nat 0) with 0%nat.
  change (Z.to_nat (Z.of_nat (List.length identify_protocol)))
    with (List.length identify_protocol).
  cbn [skipn].
  destruct (Z.of_nat (List.length (x2f :: tail)) >=? 15) eqn:Esize.
  - apply Z.geb_le in Esize.
    destruct (strncmp_defined identify_protocol (x2f :: tail)
                (List.length identify_protocol)) as [c Hc].
    { change (List.length identify_protocol) with 15%nat. lia. }
    rewrite Hc. destruct (c =? 0) eqn:Ec.
    + apply Z.eqb_eq in Ec. subst c. left. split; [|reflexivity].
      apply strncmp_match; [apply identify_protocol_no_NUL|exact Hc].
    + right. split; [|reflexivity]. intros rest Hrest.
      assert (strncmp identify_protocol (x2f :: tail)
                (List.length identify_protocol) = Some 0) as H0.
      { apply strncmp_match; [apply identify_protocol_no_NUL|eauto]. }
      rewrite Hc in H0. injection H0 as ->. discriminate Ec.
  - right. split; [|reflexivity]. intros rest Hrest.
    apply (f_equal (@List.length byte)) in Hrest.
    rewrite length_app in Hrest.
    change (List.length identify_protocol) with 15%nat in Hrest.
    rewrite Z.geb_leb in Esize. apply Z.leb_gt in Esize. lia.
Qed.

(** X17: the result is 1 only when the 15 bytes of the protocol line stand
    in the message at offset 0 or at the offset the varint decoder gave for
    the length prefix. *)
Theorem can_handle_sound (data : bytes) :
  libp2p_identify_can_handle varint_decode data = Some 1 ->
  exists n rest,
    (n = 0%nat \/ n = Z.to_nat (to_size_t (varint_decode data)))
    /\ skipn n data = identify_protocol ++ rest.
Proof.
  unfold libp2p_identify_can_handle. cbv beta iota zeta.
  change (Z.to_nat (Z.of_nat (List.length identify_protocol)))
    with (List.length identify_protocol).
  destruct (nth_error data 0) as [d0|]; [|discriminate].
  assert (forall num_bytes,
    match strncmp identify_protocol (skipn (Z.to_nat num_bytes) data)
            (List.length identify_protocol) with
    | Some compared => if compared =? 0 then Some 1 else Some 0
    | None => None
    end = Some 1 ->
    exists rest, skipn (Z.to_nat num_bytes) data = identify_protocol ++ rest)
    as Hmatch.
  { intros num_bytes H.
    destruct (strncmp identify_protocol _ _) as [c|] eqn:Hc; [|discriminate].
    destruct (c =? 0) eqn:Ec; [|discriminate].
    apply Z.eqb_eq in Ec. subst c.
    apply strncmp_match in Hc; [exact Hc|apply identify_protocol_no_NUL]. }
  destruct (negb (Byte.eqb d0 (nth 0 identify_protocol NUL))).
  - destruct (nth_error data 1) as [d1|]; [|discriminate].
    destruct (negb (Byte.eqb d1 (nth 1 identify_protocol NUL))).
    + destruct (_ >=? _); [|discriminate]. intros H.
      destruct (Hmatch _ H) as [rest Hrest]. eauto.
    + destruct (_ >=? _); [|discriminate]. intros H.
      destruct (Hmatch _ H) as [rest Hrest]. exists 0%nat, rest. auto.
  - destruct (_ >=? _); [|discriminate]. intros H.
    destruct (Hmatch _ H) as [rest Hrest]. exists 0%nat, rest. auto.
Qed.

(** X18: a message that holds the protocol line behind one byte other than
    '/' gives 1 when the varint decoder reports a prefix of one byte. *)
Theorem can_handle_prefixed (p : byte) (rest : bytes) :
  p <> x2f ->
  to_size_t (varint_decode (p :: identify_protocol ++ rest)) = 1 ->
  libp2p_identify_can_handle varint_decode (p :: identify_protocol ++ rest)
  = Some 1.
Proof.
  intros Hp Hvarint. unfold libp2p_identify_can_handle.
  change (nth_error (p :: identify_protocol ++ rest) 0) with (Some p).
  change (nth_error (p :: identify_protocol ++ rest) 1) with (Some x2f).
  cbv beta iota zeta.
  change (nth 0 identify_protocol NUL) with x2f.
  replace (Byte.eqb p x2f) with false
    by (symmetry; destruct (Byte.eqb p x2f) eqn:E;
        [apply byte_eqb_eq in E; tauto|reflexivity]).
  cbn [negb].
  change (Byte.eqb x2f (nth 1 identify_protocol NUL)) with false.
  cbn [negb]. cbv beta iota zeta. rewrite Hvarint.
  change (to_size_t (Z.of_nat (List.length identify_protocol) - 1)) with 14.
  change (Z.to_nat 1) with 1%nat. cbn [skipn].
  change (Z.to_nat (Z.of_nat (List.length identify_protocol)))
    with (List.length identify_protocol).
  replace (Z.of_nat (List.length (p :: identify_protocol ++ rest)) >=? 14)
    with true.
  - replace (strncmp identify_protocol (identify_protocol ++ rest)
               (List.length identify_protocol)) with (Some 0); [reflexivity|].
    symmetry. apply strncmp_match; [apply identify_protocol_no_NUL|eauto].
  - symmetry. apply Z.geb_le. cbn [List.length]. rewrite length_app.
    change (List.length identify_protocol) with 15%nat. lia.
Qed.

(** X19: when such a message is cut off after the first 13 or 14 bytes of
    the protocol line, the size test still passes (it subtracts the length
    of the prefix from the 15 it needs) and the comparison reads past the
    end of the message. *)
Theorem can_handle_truncated (p : byte) (j : nat) :
  p <> x2f ->
  to_size_t (varint_decode (p :: firstn j identify_protocol)) = 1 ->
  (13 <= j < 15)%nat ->
  libp2p_identify_can_handle varint_decode (p :: firstn j identify_protocol)
  = None.
Proof.
  intros Hp Hvarint Hj. unfold libp2p_identify_can_handle.
  change (nth_error (p :: firstn j identify_protocol) 0) with (Some p).
  assert (nth_error (p :: firstn j identify_protocol) 1 = Some x2f) as ->.
  { destruct j; [lia|reflexivity]. }
  cbv beta iota zeta.
  change (nth 0 identify_protocol NUL) with x2f.
  replace (Byte.eqb p x2f) with false
    by (symmetry; destruct (Byte.eqb p x2f) eqn:E;
        [apply byte_eqb_eq in E; tauto|reflexivity]).
  cbn [negb].
  change (Byte.eqb x2f (nth 1 identify_protocol NUL)) with false.
  cbn [negb]. cbv beta iota zeta. rewrite Hvarint.
  change (to_size_t (Z.of_nat (List.length identify_protocol) - 1)) with 14.
  change (Z.to_nat 1) with 1%nat. cbn [skipn].
  change (Z.to_nat (Z.of_nat (List.length identify_protocol)))
    with (List.length identify_protocol).
  assert (List.length (firstn j identify_protocol) = j) as Hlen.
  { rewrite length_firstn.
    change (List.length identify_protocol) with 15%nat. lia. }
  replace (Z.of_nat (List.length (p :: firstn j identify_protocol)) >=? 14)
    with true
    by (symmetry; apply Z.geb_le; cbn [List.length]; rewrite Hlen; lia).
  rewrite <- (firstn_skipn j identify_protocol) at 1.
  rewrite strncmp_past_end; [reflexivity| |].
  - intros H. apply identify_protocol_no_NUL.
    rewrite <- (firstn_skipn j identify_protocol). apply in_or_app. auto.
  - rewrite Hlen. change (List.length identify_protocol) with 15%nat. lia.
Qed.

End CanHandle.

Lemma can_handle_sound_witness :
  exists n rest,
    skipn n (x0f :: identify_protocol) = identify_protocol ++ rest.
Proof.
  destruct (can_handle_sound (fun _ => 1) (x0f :: identify_protocol) eq_refl)
    as (n & rest & _ & H).
  exists n, rest. exact H.
Defined.

Lemma can_handle_prefixed_witness :
  libp2p_identify_can_handle (fun _ => 1) (x0f :: identify_protocol ++ [])
  = Some 1.
Proof.
  apply (can_handle_prefixed (fun _ => 1) x0f []).
  - discriminate.
  - reflexivity.
Defined.

Lemma can_handle_truncated_witness :
  libp2p_identify_can_handle (fun _ => 1)
    (x0e :: firstn 14 identify_protocol) = None.
Proof.
  apply (can_handle_truncated (fun _ => 1) x0e 14).
  - discriminate.
  - reflexivity.
  - lia.
Defined.

(** ** The answer to the identify protocol line *)

Lemma starts_with_app (a b : bytes) : starts_with a (a ++ b) = true.
Proof.
  induction a as [|c a IH]; simpl; [reflexivity|].
  rewrite IH, (Byte.byte_dec_lb eq_refl). reflexivity.
Qed.

Lemma starts_with_true (needle s : bytes) :
  starts_with needle s = true -> exists rest, s = needle ++ rest.
Proof.
  revert s. induction needle as [|n needle IH]; intros s; simpl.
  - intros _. exists s. reflexivity.
  - destruct s as [|c s]; [discriminate|].
    intros H. apply andb_true_iff in H. destruct H as [Hc Hrest].
    apply byte_eqb_eq in Hc. subst c.
    destruct (IH s Hrest) as [rest ->]. exists rest. reflexivity.
Qed.

Lemma strstr_sound (s needle : bytes) (offset : nat) :
  strstr s needle = Some offset ->
  exists rest, skipn offset s = needle ++ rest.
Proof.
  revert offset. induction s as [|c s IH]; intros offset; simpl.
  - destruct (starts_with needle []) eqn:E; [|discriminate].
    intros [= <-]. apply starts_with_true. exact E.
  - destruct (starts_with needle (c :: s)) eqn:E.
    + intros [= <-]. apply starts_with_true. exact E.
    + destruct (strstr s needle) as [n|]; [|discriminate].
      intros [= <-]. simpl. apply IH. reflexivity.
Qed.

Lemma c_str_prefix (s : bytes) : exists tail, s = c_str s ++ tail.
Proof.
  induction s as [|c s [tail IH]]; simpl; [exists []; reflexivity|].
  destruct (Byte.eqb c NUL).
  - exists (c :: s). reflexivity.
  - exists tail. simpl. congruence.
Qed.

Lemma c_str_app (a b : bytes) : ~ In NUL a -> c_str (a ++ b) = a ++ c_str b.
Proof.
  induction a as [|c a IH]; intros H; simpl; [reflexivity|].
  destruct (Byte.eqb c NUL) eqn:E.
  - apply byte_eqb_eq in E. exfalso. apply H. left. auto.
  - f_equal. apply IH. intros Hin. apply H. right. exact Hin.
Qed.

Lemma skipn_app_found (s tail needle rest : bytes) (offset : nat) :
  needle <> [] ->
  skipn offset s = needle ++ rest ->
  skipn offset (s ++ tail) = needle ++ rest ++ tail.
Proof.
  intros Hne H.
  assert (offset <= List.length s)%nat as Hlen.
  { destruct (Nat.le_gt_cases offset (List.length s)) as [Hle|Hgt]; [exact Hle|].
    rewrite skipn_all2 in H by lia.
    destruct needle; [congruence|discriminate H]. }
  rewrite skipn_app, H.
  replace (offset - List.length s)%nat with 0%nat by lia.
  rewrite <- app_assoc. reflexivity.
Qed.

Lemma c_string_app (a b : bytes) :
  ~ In NUL a -> c_string (a ++ b) = option_map (app a) (c_string b).
Proof.
  induction a as [|c a IH]; intros H; simpl.
  - destruct (c_string b); reflexivity.
  - destruct (Byte.eqb c NUL) eqn:E.
    + apply byte_eqb_eq in E. exfalso. apply H. left. auto.
    + rewrite IH by (intros Hin; apply H; right; exact Hin).
      destruct (c_string b); reflexivity.
Qed.

Lemma c_string_defined (s : bytes) :
  In NUL s -> exists str, c_string s = Some str.
Proof.
  induction s as [|c s IH]; intros H; [contradiction|]. simpl.
  destruct (Byte.eqb c NUL) eqn:E; [eauto|].
  destruct H as [->|H]; [discriminate E|].
  destruct (IH H) as [str ->]. simpl. eauto.
Qed.

Lemma c_string_cut (s str : bytes) :
  c_string s = Some str -> exists tail, s = str ++ NUL :: tail.
Proof.
  revert str. induction s as [|c s IH]; intros str; simpl; [discriminate|].
  destruct (Byte.eqb c NUL) eqn:E.
  - apply byte_eqb_eq in E. subst c. intros [= <-]. exists s. reflexivity.
  - destruct (c_string s) as [str'|]; [|discriminate]. intros [= <-].
    destruct (IH str' eq_refl) as [tail ->]. exists tail. reflexivity.
Qed.

Lemma strstr_at_start (needle rest : bytes) :
  strstr (needle ++ rest) needle = Some 0%nat.
Proof.
  destruct needle as [|c needle]; [destruct rest; reflexivity|].
  cbn [app strstr].
  change (c :: needle ++ rest) with ((c :: needle) ++ rest).
  rewrite starts_with_app. reflexivity.
Qed.

Section ReceiveProtocol.

Variable parent_stream : Stream.

(** X20: when the read succeeds and the message holds the protocol line at
    its start, or behind one byte of any value, and a NUL somewhere behind
    the line, the result is 1. *)
Theorem receive_protocol_accepts (r : Z) (data rest : bytes) :
  read parent_stream 30 = (r, Some data) ->
  r <> 0 ->
  In NUL rest ->
  data = identify_protocol ++ rest
  \/ (exists p, data = p :: identify_protocol ++ rest) ->
  libp2p_identify_receive_protocol parent_stream = Some 1.
Proof.
  intros Hread Hr Hnul Hdata. unfold libp2p_identify_receive_protocol.
  rewrite Hread. apply Z.eqb_neq in Hr. rewrite Hr.
  destruct (c_string_defined rest Hnul) as [str Hstr].
  assert (c_string (identify_protocol ++ rest)
          = Some (identify_protocol ++ str)) as Hline.
  { rewrite c_string_app by apply identify_protocol_no_NUL.
    rewrite Hstr. reflexivity. }
  destruct Hdata as [->|[p ->]].
  - change (nth_error (identify_protocol ++ rest) 0) with (Some x2f).
    cbv beta iota zeta. change (Byte.eqb x2f x2f) with true. cbn [negb skipn].
    rewrite Hline, strstr_at_start. reflexivity.
  - cbn [nth_error]. cbv beta iota zeta.
    destruct (Byte.eqb p x2f) eqn:Ep; cbn [negb skipn].
    + apply byte_eqb_eq in Ep. subst p.
      change (x2f :: identify_protocol ++ rest)
        with ([x2f] ++ identify_protocol ++ rest).
      rewrite c_string_app by (vm_compute; intuition discriminate).
      rewrite Hline. cbn [option_map app strstr].
      change (starts_with identify_protocol
                (x2f :: identify_protocol ++ str)) with false.
      rewrite strstr_at_start. reflexivity.
    + rewrite Hline, strstr_at_start. reflexivity.
Qed.

(** X21: the result is 1 only when the read returned a value other than 0
    and the message holds the protocol line at offset 0, 1 or 2, with a NUL
    somewhere behind it. *)
Theorem receive_protocol_sound :
  libp2p_identify_receive_protocol parent_stream = Some 1 ->
  fst (read parent_stream 30) <> 0
  /\ exists data n rest,
       snd (read parent_stream 30) = Some data
       /\ (n <= 2)%nat
       /\ skipn n data = identify_protocol ++ rest
       /\ In NUL rest.
Proof.
  unfold libp2p_identify_receive_protocol.
  destruct (read parent_stream 30) as [r results]. cbn [fst snd].
  destruct (r =? 0) eqn:Er; [discriminate|]. apply Z.eqb_neq in Er.
  destruct results as [data|]; [|discriminate].
  destruct (nth_error data 0) as [d0|]; [|discriminate].
  cbv beta iota zeta.
  set (start := if negb (Byte.eqb d0 x2f) then 1%nat else 0%nat).
  assert (start <= 1)%nat as Hstart
    by (unfold start; destruct (negb (Byte.eqb d0 x2f)); lia).
  destruct (c_string (skipn start data)) as [str|] eqn:Estr; [|discriminate].
  destruct (strstr str identify_protocol) as [offset|] eqn:Efound;
    [|discriminate].
  destruct (1 <? offset)%nat eqn:Eoffset; [discriminate|].
  apply Nat.ltb_ge in Eoffset. intros _. split; [exact Er|].
  destruct (strstr_sound _ _ _ Efound) as [rest Hrest].
  destruct (c_string_cut _ _ Estr) as [tail Htail].
  eapply skipn_app_found in Hrest; [|discriminate].
  rewrite <- Htail, skipn_skipn in Hrest.
  exists data, (offset + start)%nat, (rest ++ NUL :: tail).
  split; [reflexivity|]. split; [lia|]. split; [exact Hrest|].
  apply in_or_app. right. left. reflexivity.
Qed.

End ReceiveProtocol.

Lemma receive_protocol_accepts_witness :
  libp2p_identify_receive_protocol
    {| write := fun _ => 1;
       read := fun _ => (17, Some (x0f :: identify_protocol ++ [NUL]));
       close := 1 |}
  = Some 1.
Proof.
  apply (receive_protocol_accepts _ 17 (x0f :: identify_protocol ++ [NUL])
           [NUL]).
  - reflexivity.
  - lia.
  - left. reflexivity.
  - right. exists x0f. reflexivity.
Defined.

Lemma receive_protocol_sound_witness :
  exists data n rest,
    data = bs "ab" ++ identify_protocol ++ [NUL]
    /\ (n <= 2)%nat
    /\ skipn n data = identify_protocol ++ rest.
Proof.
  destruct (receive_protocol_sound
              {| write := fun _ => 1;
                 read := fun _ =>
                   (18, Some (bs "ab" ++ identify_protocol ++ [NUL]));
                 close := 1 |} eq_refl)
    as (_ & data & n & rest & Hdata & Hn & Hskip & _).
  exists data, n, rest. cbn [read snd] in Hdata.
  split; [congruence|]. split; assumption.
Defined.


(** ** The first token of the local list *)

Lemma skip_delims_leading (leading x : bytes) :
  Forall (fun c => c = x2c) leading ->
  skip_delims comma (leading ++ x) = skip_delims comma x.
Proof.
  induction 1 as [|c leading Hc _ IH]; [reflexivity|]. subst c.
  cbn [app skip_delims].
  replace (is_delim comma x2c) with true by reflexivity. exact IH.
Qed.

Lemma leading_no_NUL (leading : bytes) :
  Forall (fun c => c = x2c) leading -> ~ In NUL leading.
Proof.
  intros H Hin. rewrite Forall_forall in H. apply H in Hin. discriminate Hin.
Qed.

Lemma split_list_first (leading first tail : bytes) :
  Forall (fun c => c = x2c) leading ->
  well_formed_token first ->
  tail = [] \/ (exists c rest, tail = c :: rest /\ (c = x2c \/ c = NUL)) ->
  exists next,
    libp2p_secio_split_list (leading ++ first ++ tail) = first :: next.
Proof.
  intros Hleading Hfirst Htail. pose proof Hfirst as (Hne & Hcomma & Hnul).
  assert (exists t, c_str tail = t
                    /\ strtok comma (first ++ t)
                       = Some (first, match t with [] => [] | _ :: r => r end))
    as (t & Ht & Htok).
  { destruct Htail as [->|(c & rest & -> & [->| ->])].
    - exists []. split; [reflexivity|]. rewrite app_nil_r.
      apply strtok_last. exact Hfirst.
    - exists (x2c :: c_str rest). split; [reflexivity|].
      apply strtok_first. exact Hfirst.
    - exists []. split; [reflexivity|]. rewrite app_nil_r.
      apply strtok_last. exact Hfirst. }
  unfold libp2p_secio_split_list.
  rewrite c_str_app by (apply leading_no_NUL; exact Hleading).
  rewrite c_str_app by exact Hnul. rewrite Ht.
  cbn [split_list_loop]. unfold strtok at 1.
  rewrite skip_delims_leading by exact Hleading.
  fold (strtok comma (first ++ t)). rewrite Htok.
  cbn [libp2p_secio_string_allocate]. eauto.
Qed.

(** C9: with order 0 the call returns 1 and stores the first token of the
    local list, for every remote list.  The local list is written out: any
    number of commas, then the token (not empty, without comma or NUL), then
    the end of the list, a comma or a NUL and whatever follows.  The remote
    list plays no part in the result. *)
Theorem select_best_order_zero (leading first tail remote_list : bytes)
  (results : option bytes) :
  Forall (fun c => c = x2c) leading ->
  well_formed_token first ->
  tail = [] \/ (exists c rest, tail = c :: rest /\ (c = x2c \/ c = NUL)) ->
  libp2p_secio_select_best 0 (leading ++ first ++ tail) remote_list results
    = Some (1, Some first)
  /\ (forall other_remote,
        libp2p_secio_select_best 0 (leading ++ first ++ tail) other_remote
          results
        = libp2p_secio_select_best 0 (leading ++ first ++ tail) remote_list
            results).
Proof.
  intros Hleading Hfirst Htail.
  destruct (split_list_first _ _ _ Hleading Hfirst Htail) as [next Hsplit].
  unfold libp2p_secio_select_best. cbn [Z.eqb]. rewrite Hsplit.
  split; reflexivity.
Qed.

(** The list ",,P-521,P-256": the token stored is "P-521". *)
Lemma select_best_order_zero_witness :
  libp2p_secio_select_best 0 (bs ",,P-521,P-256") (bs "P-256") None
  = Some (1, Some (bs "P-521")).
Proof.
  apply (select_best_order_zero (bs ",,") (bs "P-521") (bs ",P-256")
           (bs "P-256") None).
  - repeat constructor.
  - repeat split; try discriminate; vm_compute; intuition discriminate.
  - right. exists x2c, (bs "P-256"). auto.
Defined.
